(** * Lock-free containers of [Utilities/lockless.h]

    A shallow embedding of the seven class templates of the header
    ([lf_array], [lf_fifo], [lf_hashmap], [lf_spsc], [lf_mpsc], [lf_queue],
    [lf_value]) and the properties of their semantics.

    Conventions.
    - [std::uint32_t] and [std::uint64_t] are integers in [Z]; every
      operation that can leave the range is followed by [wrap32] or [wrap64].
    - [std::size_t] indices and counts are [nat]: an index can only reach
      [2^64] after more blocks were allocated than the address space holds.
    - An atomic read-modify-write ([fetch_add], [compare_and_swap],
      [atomic_op], ...) is one function from the old value to the result and
      the new value.  Fences have no effect on a sequentially consistent
      run and are left out.
    - A member function is a function from the state it is called in to
      its result and the state it leaves; a run is a sequence of calls.
      For [lf_spsc] the single accesses of one producer and one consumer
      are interleaved as well.
    - [new] always succeeds. *)

From Stdlib Require Import ZArith Lia List Bool.
From stdpp Require Import base option list gmap fin_maps.

Set Default Proof Using "Type".

(** ** Machine integers *)

Module Word.

Definition two32 : Z := 2 ^ 32.
Definition two64 : Z := 2 ^ 64.

(** Result of an arithmetic operation performed in [std::uint32_t]. *)
Definition wrap32 (z : Z) : Z := z mod two32.

(** Result of an arithmetic operation performed in [std::uint64_t]. *)
Definition wrap64 (z : Z) : Z := z mod two64.

Definition is_u32 (z : Z) : Prop := (0 <= z < two32)%Z.
Definition is_u64 (z : Z) : Prop := (0 <= z < two64)%Z.

End Word.

(** ** [lf_array<T, N>] *)

Module LfArray.
Section lf_array.
Context {T : Type}.
(** The value-initialised element [T{}]. *)
Variable dflt : T.
(** The template parameter [N]. *)
Variable N : nat.

(** A block: [T m_data[N]] and the owning pointer [m_next], which is
    [None] for [nullptr].  The chain is owned by its first block (the
    destructor frees it block by block), it only grows, and blocks are
    never shared, so the pointee is kept in place of its address. *)
#[warnings="-register-all"]
Inductive lf_array : Type :=
  Block { m_data : list T; m_next : option lf_array }.

(** [new lf_array]: [N] value-initialised elements, no next block. *)
Definition new_lf_array : lf_array := Block (replicate N dflt) None.

(** The loop
    [for (ptr = this; ptr;) ptr = ptr->m_next.compare_and_swap(nullptr, _new);]
    [compare_and_swap] stores [_new] when [m_next] is null and returns the
    old value: on null the loop stops, otherwise it goes on from the block
    it found. *)
Fixpoint install (_new : lf_array) (ptr : lf_array) : lf_array :=
  match ptr with
  | Block d None => Block d (Some _new)
  | Block d (Some nxt) => Block d (Some (install _new nxt))
  end.

(** A [T&] into the chain: the number of [m_next] links followed from the
    first block and the position inside [m_data] of the block reached. *)
Record ref : Type := Ref { ref_block : nat; ref_slot : nat }.

Definition deeper (r : ref) : ref := Ref (S (ref_block r)) (ref_slot r).

(** [operator[]].  The recursive call on [m_next] at [index - N] is not
    structural, so the depth of the recursion is bounded by [fuel];
    [None] is a run that did not return within that depth. *)
Fixpoint access (fuel : nat) (this : lf_array) (index : nat)
  : option (lf_array * ref) :=
  match fuel with
  | O => None
  | S fuel =>
    if index <? N then Some (this, Ref 0 index)
    else
      let this :=
        match m_next this with
        | None => install new_lf_array this
        | Some _ => this
        end in
      match m_next this with
      | None => None
      | Some nxt =>
        match access fuel nxt (index - N) with
        | None => None
        | Some (nxt, r) => Some (Block (m_data this) (Some nxt), deeper r)
        end
      end
  end.

(** [operator[]] with the depth that any index needs when [0 < N]. *)
Definition at_index (this : lf_array) (index : nat) : option (lf_array * ref) :=
  access (S index) this index.

(** The block reached after [k] links. *)
Fixpoint nth_block (this : lf_array) (k : nat) : option lf_array :=
  match k with
  | O => Some this
  | S k =>
    match m_next this with
    | None => None
    | Some nxt => nth_block nxt k
    end
  end.

(** Reading through a reference. *)
Definition load (this : lf_array) (r : ref) : option T :=
  match nth_block this (ref_block r) with
  | None => None
  | Some b => m_data b !! ref_slot r
  end.

(** Writing through a reference. *)
Fixpoint store_at (this : lf_array) (k s : nat) (v : T) : lf_array :=
  match k, this with
  | O, Block d n => Block (<[s := v]> d) n
  | S k, Block d (Some nxt) => Block d (Some (store_at nxt k s v))
  | S _, Block d None => this
  end.

Definition store (this : lf_array) (r : ref) (v : T) : lf_array :=
  store_at this (ref_block r) (ref_slot r) v.

(** Number of blocks of the chain. *)
Fixpoint blocks (this : lf_array) : nat :=
  match this with
  | Block _ None => 1
  | Block _ (Some nxt) => S (blocks nxt)
  end.

(** Every block holds exactly [N] elements. *)
Fixpoint wf (this : lf_array) : Prop :=
  match this with
  | Block d None => length d = N
  | Block d (Some nxt) => length d = N /\ wf nxt
  end.

(** The chain after [k] more blocks were allocated and linked. *)
Fixpoint grow (k : nat) (this : lf_array) : lf_array :=
  match k with
  | O => this
  | S k => grow k (install new_lf_array this)
  end.

End lf_array.

Arguments lf_array : clear implicits.
Arguments Block {T} _ _.
Arguments m_data {T} _.
Arguments m_next {T} _.

End LfArray.

(** ** [lf_fifo<T, N>] *)

Module LfFifo.

(** [struct alignas(8) ctrl_t { u32 push; u32 pop; }]. *)
Record ctrl_t : Type := Ctrl { push : Z; pop : Z }.

Section lf_fifo.
Context {T : Type}.

(** The class derives from [lf_array<T, N>] and adds [m_ctrl]. *)
Record lf_fifo : Type :=
  Fifo { base : LfArray.lf_array T; m_ctrl : ctrl_t }.

(** [atomic_t::atomic_op]: the function is applied to the stored value in
    one indivisible step; its result is returned. *)
Definition atomic_op {R : Type} (f : ctrl_t -> R * ctrl_t) (q : lf_fifo)
  : R * lf_fifo :=
  let '(r, c) := f (m_ctrl q) in (r, Fifo (base q) c).

(** [size()]: the [push] half of the control word. *)
Definition size (q : lf_fifo) : Z := push (m_ctrl q).

(** [push_begin(count)]: [fetch_add] on the [push] half, 32-bit wide. *)
Definition push_begin (count : Z) (q : lf_fifo) : Z * lf_fifo :=
  atomic_op (fun c => (push c, Ctrl (Word.wrap32 (push c + count)) (pop c))) q.

(** [peek()]. *)
Definition peek (q : lf_fifo) : Z := pop (m_ctrl q).

(** [pop_end(count)]. *)
Definition pop_end (count : Z) (q : lf_fifo) : Z * lf_fifo :=
  atomic_op (fun ctrl =>
    let ctrl := Ctrl (push ctrl) (Word.wrap32 (pop ctrl + count)) in
    let ctrl := if (pop ctrl =? push ctrl)%Z then Ctrl 0 0 else ctrl in
    (pop ctrl, ctrl)) q.

(** [pop_end()] with its default argument. *)
Definition pop_end1 : lf_fifo -> Z * lf_fifo := pop_end 1.

(** The calls of the counting interface and their results. *)
Inductive call : Type :=
| PushBegin (count : Z)
| PopEnd (count : Z).

Definition step (c : call) (q : lf_fifo) : Z * lf_fifo :=
  match c with
  | PushBegin n => push_begin n q
  | PopEnd n => pop_end n q
  end.

(** Runs the calls in order; the results are listed in call order. *)
Fixpoint run (cs : list call) (q : lf_fifo) : list Z * lf_fifo :=
  match cs with
  | [] => ([], q)
  | c :: cs =>
    let '(r, q) := step c q in
    let '(rs, q) := run cs q in
    (r :: rs, q)
  end.

(** The first index of each of a series of reservations of [counts]
    elements that starts at index [from]. *)
Fixpoint starts (from : Z) (counts : list Z) : list Z :=
  match counts with
  | [] => []
  | c :: counts => from :: starts (from + c)%Z counts
  end.

(** The number of elements a series of reservations asks for. *)
Definition total (counts : list Z) : Z := foldr Z.add 0%Z counts.

(** The elements reserved and not yet acknowledged. *)
Definition outstanding (q : lf_fifo) : Z := (size q - peek q)%Z.

(** The counters are 32-bit and the pop counter has not passed the push
    counter. *)
Definition in_order (q : lf_fifo) : Prop :=
  (0 <= peek q <= size q /\ size q < Word.two32)%Z.

(** A call that keeps to the counting protocol: a reservation stays
    within 32 bits, an acknowledgement covers no more than is outstanding. *)
Definition allowed (c : call) (q : lf_fifo) : Prop :=
  match c with
  | PushBegin n => (0 <= n /\ size q + n < Word.two32)%Z
  | PopEnd n => (0 <= n <= outstanding q)%Z
  end.

Fixpoint allowed_run (cs : list call) (q : lf_fifo) : Prop :=
  match cs with
  | [] => True
  | c :: cs => allowed c q /\ allowed_run cs (snd (step c q))
  end.

(** What a call adds to the number of outstanding elements. *)
Definition effect (c : call) : Z :=
  match c with
  | PushBegin n => n
  | PopEnd n => (- n)%Z
  end.

End lf_fifo.

Arguments lf_fifo : clear implicits.

(** [lf_fifo()]: both counters are zero. *)
Definition init {T : Type} (a : LfArray.lf_array T) : lf_fifo T :=
  Fifo a (Ctrl 0 0).

(** The array of a queue of [unit] elements, one element per block. *)
Definition unit_array : LfArray.lf_array unit := LfArray.new_lf_array tt 1.

End LfFifo.

(** ** [lf_hashmap<K, T, Hash, Size>] *)

Module LfHashmap.
Section lf_hashmap.
Context {K T : Type} `{EqDecision K}.
(** [K{}], the key that marks a free slot, and [T{}]. *)
Variable key0 : K.
Variable dflt : T.
(** [Hash{}(key)] and the template parameter [Size]. *)
Variable Hash : K -> nat.
Variable Size : nat.

Record pair_t : Type := Pair { key : K; value : T }.

Record lf_hashmap : Type :=
  Hashmap { m_data : LfArray.lf_array pair_t; m_default_key_data : T }.

(** The [T&] returned by [operator[]]: [m_default_key_data], or the
    [value] member of a pair of the table. *)
Inductive value_ref : Type :=
| DefaultKeyData
| PairValue (r : LfArray.ref).

(** [atomic_t<K>::compare_and_swap_test(cmp, exch)]: stores [exch] if the
    key equals [cmp]; tells whether it did. *)
Definition compare_and_swap_test (cmp exch : K) (p : pair_t) : bool * pair_t :=
  if decide (key p = cmp) then (true, Pair exch (value p)) else (false, p).

(** The probe loop [for (pos = Hash{}(key) % Size;; pos += Size)]; [fuel]
    bounds the number of iterations. *)
Fixpoint probe (fuel : nat) (k : K) (a : LfArray.lf_array pair_t) (pos : nat)
  : option (LfArray.lf_array pair_t * LfArray.ref) :=
  match fuel with
  | O => None
  | S fuel =>
    match LfArray.at_index (Pair key0 dflt) Size a pos with
    | None => None
    | Some (a, r) =>
      match LfArray.load a r with
      | None => None
      | Some pair_ =>
        if decide (key pair_ = k) then Some (a, r)
        else
          let '(swapped, pair_) := compare_and_swap_test key0 k pair_ in
          if swapped then Some (LfArray.store a r pair_, r)
          else probe fuel k a (pos + Size)
      end
    end
  end.

(** [operator[]]. *)
Definition at_key (fuel : nat) (k : K) (m : lf_hashmap)
  : option (lf_hashmap * value_ref) :=
  if decide (k = key0) then Some (m, DefaultKeyData)
  else
    match probe fuel k (m_data m) (Hash k mod Size) with
    | None => None
    | Some (a, r) => Some (Hashmap a (m_default_key_data m), PairValue r)
    end.

(** The key stored in slot [s] of block [b], if the block exists. *)
Definition key_at (a : LfArray.lf_array pair_t) (b s : nat) : option K :=
  key <$> LfArray.load a (LfArray.Ref b s).

(** The value a reference denotes. *)
Definition deref (m : lf_hashmap) (r : value_ref) : option T :=
  match r with
  | DefaultKeyData => Some (m_default_key_data m)
  | PairValue r => value <$> LfArray.load (m_data m) r
  end.

(** Slot [s] of block [b] holds a key that is neither [k] nor free. *)
Definition occupied_by_other (k : K) (a : LfArray.lf_array pair_t)
  (b s : nat) : Prop :=
  exists k', key_at a b s = Some k' /\ k' <> k /\ k' <> key0.

(** [lf_hashmap()]: one block of free slots. *)
Definition init : lf_hashmap :=
  Hashmap (LfArray.new_lf_array (Pair key0 dflt) Size) dflt.

(** An assignment through the [T&] that [operator[]] returned. *)
Definition store_value (m : lf_hashmap) (r : value_ref) (v : T) : lf_hashmap :=
  match r with
  | DefaultKeyData => Hashmap (m_data m) v
  | PairValue r =>
    match LfArray.load (m_data m) r with
    | None => m
    | Some pair_ =>
      Hashmap (LfArray.store (m_data m) r (Pair (key pair_) v))
              (m_default_key_data m)
    end
  end.

End lf_hashmap.

Arguments pair_t : clear implicits.
Arguments lf_hashmap : clear implicits.

End LfHashmap.

(** ** [lf_spsc<T, N>] *)

Module LfSpsc.
Import Word.
Local Open Scope Z_scope.

(** [static_assert(N && (1u << 31) % N == 0)] on the [std::uint32_t]
    template parameter. *)
Definition static_assert (N : Z) : Prop :=
  0 < N < two32 /\ (2 ^ 31) mod N = 0.

Section lf_spsc.
Context {T : Type}.
Variable dflt : T.
Variable N : Z.

Record lf_spsc : Type :=
  Spsc { m_push : Z; m_pop : Z; m_data : list T }.

(** [lf_spsc()]: both cursors zero, [N] value-initialised slots. *)
Definition init : lf_spsc := Spsc 0 0 (replicate (Z.to_nat N) dflt).

(** [m_data[i]] for an index computed in unsigned arithmetic. *)
Definition slot (q : lf_spsc) (i : Z) : option T := m_data q !! Z.to_nat i.

(** [try_push(data)]. *)
Definition try_push (data : T) (q : lf_spsc) : bool * lf_spsc :=
  let pos := m_push q in
  if N <=? wrap32 (pos - m_pop q) then (false, q)
  else
    (true,
     Spsc (wrap32 (pos + 1)) (m_pop q)
          (<[Z.to_nat (pos mod N) := data]> (m_data q))).

(** [operator T*()]: the index of the slot pointed to, [None] for
    [nullptr]. *)
Definition push_ptr (q : lf_spsc) : option Z :=
  let pos := m_push q in
  if N <=? wrap32 (pos - m_pop q) then None else Some (pos mod N).

(** [end_push()]. *)
Definition end_push (q : lf_spsc) : lf_spsc :=
  let pos := m_push q in
  if wrap32 (pos - m_pop q) <? N
  then Spsc (wrap32 (pos + 1)) (m_pop q) (m_data q)
  else q.

(** [get_push(i)], with [i] a [std::size_t]. *)
Definition get_push (i : Z) (q : lf_spsc) : option T :=
  slot q (wrap64 (m_push q + i) mod N).

(** [try_pop(out)]: the flag, the new content of [out], the new ring.
    The slot keeps its value: moving from a slot is copying it. *)
Definition try_pop (out : T) (q : lf_spsc) : bool * T * lf_spsc :=
  let pos := m_pop q in
  if wrap32 (m_push q - pos) <=? 0 then (false, out, q)
  else
    (true,
     default out (slot q (pos mod N)),
     Spsc (m_push q) (wrap32 (pos + 1)) (m_data q)).

(** [end_pop()]. *)
Definition end_pop (q : lf_spsc) : lf_spsc :=
  let pos := m_pop q in
  if 0 <? wrap32 (m_push q - pos)
  then Spsc (m_push q) (wrap32 (pos + 1)) (m_data q)
  else q.

(** [size()]. *)
Definition size (q : lf_spsc) : Z := wrap32 (m_push q - m_pop q).

(** [operator[](i)], with [i] a [std::size_t]. *)
Definition direct (i : Z) (q : lf_spsc) : option T :=
  slot q (wrap64 (m_pop q + i) mod N).

(** An assignment through the pointer that [operator T*()] returned. *)
Definition write_slot (ptr : Z) (data : T) (q : lf_spsc) : lf_spsc :=
  Spsc (m_push q) (m_pop q) (<[Z.to_nat ptr := data]> (m_data q)).

(** *** Runs *)

(** The member functions that change the ring. *)
Inductive op : Type :=
| TryPush (data : T)
| TryPop
| EndPush
| EndPop.

Definition step (o : op) (q : lf_spsc) : lf_spsc :=
  match o with
  | TryPush data => snd (try_push data q)
  | TryPop => snd (try_pop dflt q)
  | EndPush => end_push q
  | EndPop => end_pop q
  end.

(** The rings reachable from the empty one. *)
Inductive reachable : lf_spsc -> Prop :=
| reachable_init : reachable init
| reachable_step o q : reachable q -> reachable (step o q).

(** What the producer and the consumer observed: the values whose
    [try_push] returned true and the values handed out by the [try_pop]
    calls that returned true, both in call order. *)
Record log : Type := Log { accepted : list T; delivered : list T }.

Inductive call : Type :=
| Push (data : T)
| Pop.

Definition perform (c : call) (s : lf_spsc * log) : lf_spsc * log :=
  let '(q, lg) := s in
  match c with
  | Push data =>
    let '(ok, q) := try_push data q in
    (q, if ok then Log (accepted lg ++ [data]) (delivered lg) else lg)
  | Pop =>
    let '(ok, out, q) := try_pop dflt q in
    (q, if ok then Log (accepted lg) (delivered lg ++ [out]) else lg)
  end.

(** The calls are performed one after the other, in list order. *)
Definition run (cs : list call) (s : lf_spsc * log) : lf_spsc * log :=
  fold_left (fun s c => perform c s) cs s.

(** The elements the consumer can see, oldest first:
    the results of [operator[]] at [0], ..., [size() - 1]. *)
Definition pending (q : lf_spsc) : list (option T) :=
  map (fun k => direct (Z.of_nat k) q) (seq 0 (Z.to_nat (size q))).

(** The ring holds the values [l], oldest first: the cursors are
    32-bit, they are [length l] apart, and the slots from the pop cursor
    on carry [l]. *)
Definition holds (q : lf_spsc) (l : list T) : Prop :=
  is_u32 (m_push q) /\ is_u32 (m_pop q) /\
  length (m_data q) = Z.to_nat N /\
  size q = Z.of_nat (length l) /\
  Z.of_nat (length l) <= N /\
  forall k : nat, (k < length l)%nat ->
    slot q ((m_pop q + Z.of_nat k) mod N) = l !! k.

(** *** One producer and one consumer, access by access *)

(** Where the producer stands inside [try_push(data)]: not in a call,
    called, about to test with its copy [pos] of [m_push], about to write
    the slot, about to publish the new cursor. *)
Inductive producer : Type :=
| PIdle
| PCalled (data : T)
| PTest (data : T) (pos : Z)
| PStore (data : T) (pos : Z)
| PPublish (data : T) (pos : Z).

(** Where the consumer stands inside [try_pop(out)]: not in a call,
    called, about to test with its copy [pos] of [m_pop], about to read the
    slot, about to publish the new cursor with [out] in hand. *)
Inductive consumer : Type :=
| CIdle
| CCalled
| CTest (pos : Z)
| CLoad (pos : Z)
| CPublish (pos : Z) (out : T).

(** The ring, the two threads and what they observed so far. *)
Record system : Type :=
  System { ring : lf_spsc; prod : producer; cons : consumer; seen : log }.

(** The next access of the producer: [pos = m_push]; the test
    [pos - m_pop >= N]; [m_data[pos % N] = data]; [m_push = pos + 1]. *)
Definition producer_step (s : system) : system :=
  let q := ring s in
  match prod s with
  | PIdle => s
  | PCalled data => System q (PTest data (m_push q)) (cons s) (seen s)
  | PTest data pos =>
    if N <=? wrap32 (pos - m_pop q)
    then System q PIdle (cons s) (seen s)
    else System q (PStore data pos) (cons s) (seen s)
  | PStore data pos =>
    System (Spsc (m_push q) (m_pop q)
                 (<[Z.to_nat (pos mod N) := data]> (m_data q)))
           (PPublish data pos) (cons s) (seen s)
  | PPublish data pos =>
    System (Spsc (wrap32 (pos + 1)) (m_pop q) (m_data q)) PIdle (cons s)
           (Log (accepted (seen s) ++ [data]) (delivered (seen s)))
  end.

(** The next access of the consumer: [pos = m_pop]; the test
    [m_push - pos <= 0]; [out = m_data[pos % N]]; [m_pop = pos + 1]. *)
Definition consumer_step (s : system) : system :=
  let q := ring s in
  match cons s with
  | CIdle => s
  | CCalled => System q (prod s) (CTest (m_pop q)) (seen s)
  | CTest pos =>
    if wrap32 (m_push q - pos) <=? 0
    then System q (prod s) CIdle (seen s)
    else System q (prod s) (CLoad pos) (seen s)
  | CLoad pos =>
    System q (prod s) (CPublish pos (default dflt (slot q (pos mod N))))
           (seen s)
  | CPublish pos out =>
    System (Spsc (m_push q) (wrap32 (pos + 1)) (m_data q)) (prod s) CIdle
           (Log (accepted (seen s)) (delivered (seen s) ++ [out]))
  end.

(** What can happen next: a thread that is not in a call makes one, or a
    thread performs its next access.  An event that does not apply leaves
    the system as it is. *)
Inductive event : Type :=
| CallPush (data : T)
| CallPop
| ProducerStep
| ConsumerStep.

Definition occur (e : event) (s : system) : system :=
  match e with
  | CallPush data =>
    match prod s with
    | PIdle => System (ring s) (PCalled data) (cons s) (seen s)
    | _ => s
    end
  | CallPop =>
    match cons s with
    | CIdle => System (ring s) (prod s) CCalled (seen s)
    | _ => s
    end
  | ProducerStep => producer_step s
  | ConsumerStep => consumer_step s
  end.

(** A schedule: the events in the order in which they happen. *)
Definition interleave (es : list event) (s : system) : system :=
  fold_left (fun s e => occur e s) es s.





End lf_spsc.

Arguments lf_spsc : clear implicits.
Arguments log : clear implicits.
Arguments system : clear implicits.
Arguments event : clear implicits.
Arguments op : clear implicits.
Arguments call : clear implicits.

End LfSpsc.

(** ** [lf_mpsc<T, N>] *)

Module LfMpsc.
Import Word.
Local Open Scope Z_scope.

Definition c_ack : Z := 1.
Definition c_rel : Z := 2 ^ 32.

Section lf_mpsc.
Context {T : Type}.
Variable N : Z.

(** The class derives from [lf_spsc<T, N>] and adds [m_lock]. *)
Record lf_mpsc : Type :=
  Mpsc { spsc : LfSpsc.lf_spsc T; m_lock : Z }.

Definition m_push (q : lf_mpsc) : Z := LfSpsc.m_push (spsc q).
Definition m_pop (q : lf_mpsc) : Z := LfSpsc.m_pop (spsc q).
Definition m_data (q : lf_mpsc) : list T := LfSpsc.m_data (spsc q).

Definition set_push (p : Z) (q : lf_mpsc) : lf_mpsc :=
  Mpsc (LfSpsc.Spsc p (m_pop q) (m_data q)) (m_lock q).
Definition set_lock (l : Z) (q : lf_mpsc) : lf_mpsc := Mpsc (spsc q) l.
Definition set_slot (i : Z) (data : T) (q : lf_mpsc) : lf_mpsc :=
  Mpsc (LfSpsc.Spsc (m_push q) (m_pop q) (<[Z.to_nat i := data]> (m_data q)))
       (m_lock q).

(** [m_lock.compare_and_swap_test(cmp, exch)]. *)
Definition compare_and_swap_test (cmp exch : Z) (q : lf_mpsc) : lf_mpsc :=
  if m_lock q =? cmp then set_lock exch q else q.

(** [release(value)]. *)
Definition release (value : Z) (q : lf_mpsc) : lf_mpsc :=
  if negb (value =? 0) && (value mod c_rel =? value / c_rel) then
    let q := set_push (wrap32 (m_push q + value mod c_rel)) q in
    compare_and_swap_test value 0 q
  else q.

(** The test of [operator T*()]:
    [old % N >= N || pos - m_pop >= N - (old % N)].  [old % N] and the
    right-hand difference are 64-bit, [pos - m_pop] is 32-bit. *)
Definition refuses (old pos pop : Z) : bool :=
  (N <=? old mod N) || (wrap64 (N - old mod N) <=? wrap32 (pos - pop)).

(** [operator T*()]: the index of the slot pointed to, [None] for
    [nullptr], and the ring after the call. *)
Definition push_ptr (q : lf_mpsc) : option Z * lf_mpsc :=
  let old := m_lock q in
  let q := set_lock (wrap64 (old + c_ack)) q in
  let pos := m_push q in
  if refuses old pos (m_pop q) then
    let value := wrap64 (m_lock q - c_ack) in
    (None, release value (set_lock value q))
  else (Some (wrap64 (pos + old) mod N), q).

(** [end_push()]. *)
Definition end_push (q : lf_mpsc) : lf_mpsc :=
  let value := wrap64 (m_lock q + c_rel) in
  release value (set_lock value q).

(** [try_push(data)]. *)
Definition try_push (data : T) (q : lf_mpsc) : bool * lf_mpsc :=
  match push_ptr q with
  | (Some ptr, q) => (true, end_push (set_slot ptr data q))
  | (None, q) => (false, q)
  end.

(** The consumer side is inherited. *)
Definition size (q : lf_mpsc) : Z := LfSpsc.size (spsc q).
Definition try_pop (out : T) (q : lf_mpsc) : bool * T * lf_mpsc :=
  let '(ok, out, s) := LfSpsc.try_pop N out (spsc q) in
  (ok, out, Mpsc s (m_lock q)).

(** The two halves of a reservation word. *)
Definition ack_count (word : Z) : Z := word mod c_rel.
Definition rel_count (word : Z) : Z := word / c_rel.

(** The ring cannot take one more reservation: the elements already
    published and the reservations counted in the word fill it. *)
Definition full_with (word : Z) (q : lf_mpsc) : Prop :=
  N <= size q + ack_count word.

End lf_mpsc.

Arguments lf_mpsc : clear implicits.

(** [lf_mpsc()]. *)
Definition init {T : Type} (dflt : T) (N : Z) : lf_mpsc T :=
  Mpsc (LfSpsc.init dflt N) 0.

End LfMpsc.

(** ** Atomic operations shared by the pointer-based classes *)

Module Atomic.

(** [atomic_t<A>::compare_exchange(cmp, exch)] on a cell holding [stored]:
    if the cell equals [cmp] it takes [exch] and the call returns true,
    otherwise [cmp] takes the content of the cell and the call returns
    false.  The result lists the flag, the cell and [cmp] after the call. *)
Definition compare_exchange {A : Type} `{EqDecision A} (stored cmp exch : A)
  : bool * A * A :=
  if decide (stored = cmp) then (true, exch, cmp) else (false, stored, stored).

End Atomic.

(** ** [lf_item<T>] and [lf_queue<T>] *)

Module LfQueue.
Section lf_queue.
Context {T : Type}.

(** A list element on the free store; [m_link] is an address, [None]
    for [nullptr]. *)
Record lf_item : Type := Item { m_link : option nat; m_data : T }.

(** The free store (the items alive, by address) and the queue's only
    member, [m_head]. *)
Record state : Type :=
  State { heap : gmap nat lf_item; m_head : option nat }.

(** [lf_queue()] in a store [h]. *)
Definition init (h : gmap nat lf_item) : state := State h None.

(** The loop [while (!m_head.compare_exchange(old, item)) item->m_link = old;]
    with at most [fuel] exchanges. *)
Fixpoint push_retry (fuel : nat) (old : option nat) (item : nat) (s : state)
  : option state :=
  match fuel with
  | O => None
  | S fuel =>
    let '(ok, head, old) :=
      Atomic.compare_exchange (m_head s) old (Some item) in
    if ok then Some (State (heap s) head)
    else
      push_retry fuel old item
        (State (alter (fun i => Item old (m_data i)) item (heap s)) head)
  end.

(** [push(args...)].  [new lf_item<T>(old, args...)] takes an address
    that is not in use.  No other thread runs between [m_head.load()]
    and the exchange, so one exchange is all the loop is given. *)
Definition push (data : T) (s : state) : option state :=
  let old := m_head s in
  let item := fresh (dom (heap s)) in
  push_retry 1 old item (State (<[item := Item old data]> (heap s)) (m_head s)).

(** The [do ... while (prev)] loop of [reverse()]; [fuel] bounds the
    number of rounds.  Dereferencing an address that holds no item has
    no result. *)
Fixpoint reverse_loop (fuel : nat) (h : gmap nat lf_item) (head prev : nat)
  : option (gmap nat lf_item * nat) :=
  match fuel with
  | O => None
  | S fuel =>
    match h !! prev with
    | None => None
    | Some item =>
      let pprev := m_link item in
      let h := <[prev := Item (Some head) (m_data item)]> h in
      match pprev with
      | None => Some (h, prev)
      | Some pprev => reverse_loop fuel h prev pprev
      end
    end
  end.

(** [reverse()]: the address returned and the state left. *)
Definition reverse (fuel : nat) (s : state) : option (option nat * state) :=
  match m_head s with
  | None => Some (None, s)
  | Some head =>
    let s := State (heap s) None in
    match heap s !! head with
    | None => None
    | Some item =>
      match m_link item with
      | None => Some (Some head, s)
      | Some prev =>
        let h := <[head := Item None (m_data item)]> (heap s) in
        match reverse_loop fuel h head prev with
        | None => None
        | Some (h, head) => Some (Some head, State h None)
        end
      end
    end
  end.

(** The [for] loop of [apply]: [func] acts on what it is given and on
    its surroundings [acc].  [ptr = ptr->pop_all()] takes the link out of
    the item and deletes the item, whose link is then null, so that its
    destructor frees nothing else. *)
Fixpoint apply_loop {A : Type} (fuel : nat) (func : T -> A -> A)
  (h : gmap nat lf_item) (ptr : option nat) (count : nat) (acc : A)
  : option (gmap nat lf_item * nat * A) :=
  match ptr with
  | None => Some (h, count, acc)
  | Some p =>
    match fuel with
    | O => None
    | S fuel =>
      match h !! p with
      | None => None
      | Some item =>
        let acc := func (m_data item) acc in
        let next := m_link item in
        let h := delete p (<[p := Item None (m_data item)]> h) in
        apply_loop fuel func h next (S count) acc
      end
    end
  end.

(** [apply(func)]: the count returned, what [func] left behind, and the
    state. *)
Definition apply {A : Type} (fuel : nat) (func : T -> A -> A) (acc : A)
  (s : state) : option (nat * A * state) :=
  match reverse fuel s with
  | None => None
  | Some (ptr, s) =>
    match apply_loop fuel func (heap s) ptr 0 acc with
    | None => None
    | Some (h, count, acc) => Some (count, acc, State h (m_head s))
    end
  end.

(** Pushes the values in list order. *)
Fixpoint push_all (vs : list T) (s : state) : option state :=
  match vs with
  | [] => Some s
  | v :: vs =>
    match push v s with
    | None => None
    | Some s => push_all vs s
    end
  end.

(** The items linked from [p] are at the addresses [ls] and hold the
    values [vs], in link order. *)
Fixpoint chain (h : gmap nat lf_item) (p : option nat) (ls : list nat)
  (vs : list T) : Prop :=
  match ls, vs with
  | [], [] => p = None
  | l :: ls, v :: vs =>
    exists nxt, p = Some l /\ h !! l = Some (Item nxt v) /\ chain h nxt ls vs
  | _, _ => False
  end.

(** [lf_queue::pop_all()]: the result of [reverse()], owned by the
    caller. *)
Definition pop_all (fuel : nat) (s : state) : option (option nat * state) :=
  reverse fuel s.

(** [lf_item::pop_all()] on the item at [p]: the link is handed out and
    nulled. *)
Definition item_pop_all (p : nat) (h : gmap nat lf_item)
  : option (option nat * gmap nat lf_item) :=
  match h !! p with
  | None => None
  | Some item => Some (m_link item, <[p := Item None (m_data item)]> h)
  end.

(** [delete p] for an item: [~lf_item()] runs, then the storage is
    released.  The destructor's loop
    [for (ptr = m_link; ptr;) delete std::exchange(ptr, std::exchange(ptr->m_link, nullptr));]
    nulls the link of the item it is at, moves on, and deletes the item it
    left.  [fuel] bounds the calls and rounds together. *)
Fixpoint delete_item (fuel : nat) (h : gmap nat lf_item) (p : nat)
  {struct fuel} : option (gmap nat lf_item) :=
  match fuel with
  | O => None
  | S fuel =>
    match h !! p with
    | None => None
    | Some item =>
      match item_dtor_loop fuel h (m_link item) with
      | None => None
      | Some h => Some (delete p h)
      end
    end
  end
with item_dtor_loop (fuel : nat) (h : gmap nat lf_item) (ptr : option nat)
  {struct fuel} : option (gmap nat lf_item) :=
  match ptr with
  | None => Some h
  | Some p =>
    match fuel with
    | O => None
    | S fuel =>
      match item_pop_all p h with
      | None => None
      | Some (next, h) =>
        match delete_item fuel h p with
        | None => None
        | Some h => item_dtor_loop fuel h next
        end
      end
    end
  end.

(** [~lf_queue()]: [delete m_head.load()]; deleting a null pointer does
    nothing. *)
Definition queue_dtor (fuel : nat) (s : state) : option (gmap nat lf_item) :=
  match m_head s with
  | None => Some (heap s)
  | Some p => delete_item fuel (heap s) p
  end.

(** The end of the [std::unique_ptr] that [pop_all()] returned: [delete]
    on the pointer it holds, nothing when that is null. *)
Definition release_list (fuel : nat) (h : gmap nat lf_item) (p : option nat)
  : option (gmap nat lf_item) :=
  match p with
  | None => Some h
  | Some p => delete_item fuel h p
  end.

End lf_queue.

Arguments lf_item : clear implicits.
Arguments state : clear implicits.

End LfQueue.

(** ** [lf_value<T>] *)

Module LfValue.
Section lf_value.
Context {T : Type}.

(** One object of the class: [m_head] is an address (never null), and
    [m_data] the value. *)
Record lf_value : Type := Value { m_head : nat; m_data : T }.

(** The constructor run at address [this]: [m_head(this)], [m_data(args...)].
    The store maps the addresses of the objects alive to their content. *)
Definition construct (this : nat) (v : T) (h : gmap nat lf_value)
  : gmap nat lf_value :=
  <[this := Value this v]> h.

(** [head()]. *)
Definition head (this : nat) (h : gmap nat lf_value) : option nat :=
  m_head <$> h !! this.

(** [first()]. *)
Definition first (this : nat) (h : gmap nat lf_value) : option T :=
  m_data <$> h !! this.

(** [get()]: [m_head.load()->m_data]. *)
Definition get (this : nat) (h : gmap nat lf_value) : option T :=
  match h !! this with
  | None => None
  | Some c => m_data <$> h !! m_head c
  end.

(** The loop [do val->m_head = old; while (!m_head.compare_exchange(old, val));]
    with at most [fuel] rounds. *)
Fixpoint assign_retry (fuel : nat) (this val old : nat)
  (h : gmap nat lf_value) : option (gmap nat lf_value) :=
  match fuel with
  | O => None
  | S fuel =>
    let h := alter (fun n => Value old (m_data n)) val h in
    match h !! this with
    | None => None
    | Some c =>
      let '(ok, stored, old) := Atomic.compare_exchange (m_head c) old val in
      let h := <[this := Value stored (m_data c)]> h in
      if ok then Some h else assign_retry fuel this val old h
    end
  end.

(** [assign(args...)]: the value referred to by the result, and the
    store.  [new lf_value(args...)] takes an address that is not in use;
    no other thread runs between [m_head.load()] and the exchange, so one
    round is all the loop is given. *)
Definition assign (this : nat) (v : T) (h : gmap nat lf_value)
  : option (T * gmap nat lf_value) :=
  let val := fresh (dom h) in
  let h := construct val v h in
  match h !! this with
  | None => None
  | Some c =>
    match assign_retry 1 this val (m_head c) h with
    | None => None
    | Some h =>
      match h !! val with
      | None => None
      | Some n => Some (m_data n, h)
      end
    end
  end.

(** Assigns the values in list order. *)
Fixpoint assign_all (this : nat) (vs : list T) (h : gmap nat lf_value)
  : option (gmap nat lf_value) :=
  match vs with
  | [] => Some h
  | v :: vs =>
    match assign this v h with
    | None => None
    | Some (_, h) => assign_all this vs h
    end
  end.

(** The cell at [this] was constructed with [v0] and its head points to
    an object of the store. *)
Definition cell_of (this : nat) (v0 : T) (h : gmap nat lf_value) : Prop :=
  exists p, h !! this = Some (Value p v0) /\ is_Some (h !! p).

(** [delete p] for an object of the class: [~lf_value()] runs with [p] as
    [this], then the storage is released.  The destructor's loop
    [for (ptr = m_head.load(); ptr != this;) delete std::exchange(ptr, std::exchange(ptr->m_head.raw(), ptr));]
    makes the object it is at its own head, moves on, and deletes the
    object it left.  [fuel] bounds the calls and rounds together. *)
Fixpoint delete_value (fuel : nat) (h : gmap nat lf_value) (p : nat)
  {struct fuel} : option (gmap nat lf_value) :=
  match fuel with
  | O => None
  | S fuel =>
    match h !! p with
    | None => None
    | Some c =>
      match value_dtor_loop fuel p h (m_head c) with
      | None => None
      | Some h => Some (delete p h)
      end
    end
  end
with value_dtor_loop (fuel : nat) (this : nat) (h : gmap nat lf_value)
  (ptr : nat) {struct fuel} : option (gmap nat lf_value) :=
  if decide (ptr = this) then Some h
  else
    match fuel with
    | O => None
    | S fuel =>
      match h !! ptr with
      | None => None
      | Some n =>
        let next := m_head n in
        let h := <[ptr := Value ptr (m_data n)]> h in
        match delete_value fuel h ptr with
        | None => None
        | Some h => value_dtor_loop fuel this h next
        end
      end
    end.

(** [~lf_value()] of the cell at [this]; the storage of the cell itself
    belongs to whoever holds the cell. *)
Definition dtor (fuel : nat) (this : nat) (h : gmap nat lf_value)
  : option (gmap nat lf_value) :=
  match h !! this with
  | None => None
  | Some c => value_dtor_loop fuel this h (m_head c)
  end.

(** The values met on the way from the object at [p] to the cell, as a
    caller reads them with [first()] while it follows [head()]. *)
Fixpoint values_from (fuel : nat) (this : nat) (h : gmap nat lf_value)
  (p : nat) : option (list T) :=
  if decide (p = this) then Some []
  else
    match fuel with
    | O => None
    | S fuel =>
      match first p h, head p h with
      | Some v, Some next =>
        match values_from fuel this h next with
        | None => None
        | Some vs => Some (v :: vs)
        end
      | _, _ => None
      end
    end.

(** The objects linked from [p] up to the cell are at the addresses [ls]
    and hold the values [vs], in link order. *)
Fixpoint history (this : nat) (h : gmap nat lf_value) (p : nat)
  (ls : list nat) (vs : list T) : Prop :=
  match ls, vs with
  | [], [] => p = this
  | l :: ls, v :: vs =>
    p = l /\ l <> this /\
    exists nxt, h !! l = Some (Value nxt v) /\ history this h nxt ls vs
  | _, _ => False
  end.

(** The cell at [this], constructed with [v0], whose head leads back to
    the cell through the objects at [ls], which hold [vs]. *)
Definition kept (this : nat) (v0 : T) (h : gmap nat lf_value)
  (ls : list nat) (vs : list T) : Prop :=
  exists p, h !! this = Some (Value p v0) /\ history this h p ls vs /\
    NoDup ls.

End lf_value.

Arguments lf_value : clear implicits.

End LfValue.

(** * Properties *)

(** ** Arithmetic of the machine integers *)

Module WordFacts.
Import Word.
Local Open Scope Z_scope.

Lemma two32_eq : two32 = 4294967296.
Proof. reflexivity. Qed.

Lemma two64_eq : two64 = 18446744073709551616.
Proof. reflexivity. Qed.

Lemma wrap32_range z : 0 <= wrap32 z < two32.
Proof. unfold wrap32. apply Z.mod_pos_bound. reflexivity. Qed.

Lemma wrap64_range z : 0 <= wrap64 z < two64.
Proof. unfold wrap64. apply Z.mod_pos_bound. reflexivity. Qed.

Lemma wrap32_small z : 0 <= z < two32 -> wrap32 z = z.
Proof. intros. unfold wrap32. now apply Z.mod_small. Qed.

Lemma wrap64_small z : 0 <= z < two64 -> wrap64 z = z.
Proof. intros. unfold wrap64. now apply Z.mod_small. Qed.

Lemma wrap32_add_l a b : wrap32 (wrap32 a + b) = wrap32 (a + b).
Proof. unfold wrap32. apply Zplus_mod_idemp_l. Qed.

Lemma wrap32_sub_l a b : wrap32 (wrap32 a - b) = wrap32 (a - b).
Proof. unfold wrap32. apply Zminus_mod_idemp_l. Qed.

Lemma wrap32_sub_r a b : wrap32 (a - wrap32 b) = wrap32 (a - b).
Proof. unfold wrap32. apply Zminus_mod_idemp_r. Qed.

(** A size accepted by the [static_assert] divides [2^32] and [2^64], so
    reducing a wrapped cursor modulo [N] forgets the wrap. *)
Lemma static_assert_bound N : LfSpsc.static_assert N -> 0 < N <= 2 ^ 31.
Proof.
  intros [[Hpos _] Hmod]. split; [exact Hpos|].
  apply Z.mod_divide in Hmod; [|lia].
  apply Z.divide_pos_le in Hmod; [exact Hmod|reflexivity].
Qed.

Lemma static_assert_divide32 N : LfSpsc.static_assert N -> (N | two32).
Proof.
  intros [[Hpos _] Hmod]. apply Z.mod_divide in Hmod; [|lia].
  destruct Hmod as [k Hk]. exists (2 * k). unfold two32.
  change (2 ^ 32) with (2 * 2 ^ 31). rewrite Hk. ring.
Qed.

Lemma static_assert_divide64 N : LfSpsc.static_assert N -> (N | two64).
Proof.
  intros H. apply static_assert_divide32 in H. destruct H as [k Hk].
  exists (two32 * k). change two64 with (two32 * two32). rewrite Hk. ring.
Qed.

Lemma wrap32_mod N z : LfSpsc.static_assert N -> wrap32 z mod N = z mod N.
Proof.
  intros H. unfold wrap32.
  apply Z.mod_mod_divide. now apply static_assert_divide32.
Qed.

Lemma wrap64_mod N z : LfSpsc.static_assert N -> wrap64 z mod N = z mod N.
Proof.
  intros H. unfold wrap64.
  apply Z.mod_mod_divide. now apply static_assert_divide64.
Qed.

(** Two offsets less than [N] apart fall into different slots. *)
Lemma mod_apart N a i j : 0 < N -> 0 <= i < j -> j - i < N ->
  (a + i) mod N <> (a + j) mod N.
Proof.
  intros HN Hij Hlt Heq.
  assert (Hd : (a + j - (a + i)) mod N = 0).
  { rewrite Zminus_mod, Heq, Z.sub_diag. now apply Z.mod_0_l; lia. }
  replace (a + j - (a + i)) with (j - i) in Hd by ring.
  rewrite Z.mod_small in Hd; lia.
Qed.

End WordFacts.

(** ** Exchanges without interference *)

Module AtomicFacts.

(** When the cell still holds the value that was loaded, the exchange
    succeeds and stores the new value. *)
Lemma exchange_same {A : Type} `{EqDecision A} (old new : A) :
  Atomic.compare_exchange old old new = (true, new, old).
Proof. unfold Atomic.compare_exchange. now rewrite decide_True. Qed.

End AtomicFacts.

(** ** [lf_array]: index resolution *)

Module LfArrayFacts.
Import LfArray.

Section chain.
Context {T : Type} (dflt : T) (N : nat).
Implicit Type a : lf_array T.

Local Abbreviation new_block := (new_lf_array dflt N).
Local Abbreviation grow := (grow dflt N).
Local Abbreviation wf := (wf N).
Local Abbreviation access := (access dflt N).
Local Abbreviation at_index := (at_index dflt N).

(** Induction along the chain. *)
Lemma chain_ind (P : lf_array T -> Prop) :
  (forall d, P (Block d None)) ->
  (forall d nxt, P nxt -> P (Block d (Some nxt))) ->
  forall a, P a.
Proof.
  intros Hlast Hlink. fix IH 1. intros [d [nxt|]].
  - apply Hlink, IH.
  - apply Hlast.
Qed.

Lemma blocks_pos a : 0 < blocks a.
Proof. destruct a as [d [nxt|]]; cbn; lia. Qed.

Lemma install_blocks n a : blocks (install n a) = blocks a + blocks n.
Proof.
  induction a as [d|d nxt IH] using chain_ind; cbn.
  - destruct n as [? [?|]]; reflexivity.
  - rewrite IH. reflexivity.
Qed.

Lemma install_wf n a : wf a -> wf n -> wf (install n a).
Proof.
  intros Ha Hn. induction a as [d|d nxt IH] using chain_ind; cbn in *.
  - tauto.
  - split; [tauto|]. apply IH. tauto.
Qed.

Lemma new_block_wf : wf new_block.
Proof. cbn. apply length_replicate. Qed.

Lemma install_nth_block n a k b :
  nth_block a k = Some b ->
  exists b', nth_block (install n a) k = Some b' /\ m_data b' = m_data b.
Proof.
  revert k. induction a as [d|d nxt IH] using chain_ind; intros [|k] Hk;
    cbn in *; simplify_eq; eauto.
Qed.

Lemma install_load n a r v :
  load a r = Some v -> load (install n a) r = Some v.
Proof.
  unfold load. destruct (nth_block a (ref_block r)) as [b|] eqn:Hb; [|done].
  destruct (install_nth_block n a _ b Hb) as (b' & -> & ->). done.
Qed.

Lemma grow_link k d nxt :
  grow k (Block d (Some nxt)) = Block d (Some (grow k nxt)).
Proof. revert nxt. induction k as [|k IH]; intros nxt; cbn; [done|apply IH]. Qed.

Lemma grow_last k d :
  grow (S k) (Block d None) = Block d (Some (grow k new_block)).
Proof. cbn. apply grow_link. Qed.

Lemma grow_blocks k a : blocks (grow k a) = k + blocks a.
Proof.
  revert a. induction k as [|k IH]; intros a; cbn; [done|].
  rewrite IH, install_blocks. cbn. lia.
Qed.

Lemma grow_wf k a : wf a -> wf (grow k a).
Proof.
  revert a. induction k as [|k IH]; intros a Ha; cbn; [done|].
  apply IH, install_wf; [done|apply new_block_wf].
Qed.

Lemma grow_load k a r v : load a r = Some v -> load (grow k a) r = Some v.
Proof.
  revert a. induction k as [|k IH]; intros a Ha; cbn; [done|].
  apply IH, install_load, Ha.
Qed.

Lemma load_wf a b s :
  wf a -> b < blocks a -> s < N -> is_Some (load a (Ref b s)).
Proof.
  unfold load; cbn. revert b.
  induction a as [d|d nxt IH] using chain_ind; intros [|b] Ha Hb Hs;
    cbn in *.
  - apply lookup_lt_is_Some_2. lia.
  - lia.
  - apply lookup_lt_is_Some_2. lia.
  - apply IH; [tauto|lia|done].
Qed.

Hypothesis N_pos : 0 < N.

Lemma div_step i : N <= i -> i / N = S ((i - N) / N).
Proof using N_pos.
  intros Hi. replace i with ((i - N) + 1 * N) at 1 by lia.
  rewrite Nat.div_add by lia. lia.
Qed.

Lemma mod_step i : N <= i -> i mod N = (i - N) mod N.
Proof using N_pos.
  intros Hi. replace i with ((i - N) + 1 * N) at 1 by lia.
  apply Nat.Div0.mod_add.
Qed.

(** The recursion of [operator[]] returns once it has [i / N + 1] levels:
    it lands on slot [i % N] of block [i / N], after linking the blocks
    that were missing. *)
Lemma access_grow fuel a i :
  i / N < fuel ->
  access fuel a i =
  Some (grow (S (i / N) - blocks a) a, Ref (i / N) (i mod N)).
Proof using N_pos.
  revert a i. induction fuel as [|fuel IH]; intros a i Hfuel; [lia|].
  cbn [LfArray.access].
  destruct (Nat.ltb_spec i N) as [Hlt|Hge].
  - rewrite Nat.div_small, Nat.mod_small by done.
    pose proof (blocks_pos a).
    replace (1 - blocks a) with 0 by lia. reflexivity.
  - rewrite (div_step i Hge) in *. rewrite (mod_step i Hge).
    destruct a as [d [nxt|]]; cbn [m_next m_data install].
    + rewrite IH by lia. cbn [blocks deeper ref_block ref_slot].
      rewrite grow_link. reflexivity.
    + rewrite IH by lia. cbn [blocks deeper ref_block ref_slot].
      replace (S (S ((i - N) / N)) - 1) with (S ((i - N) / N)) by lia.
      rewrite grow_last. cbn.
      replace ((i - N) / N - 0) with ((i - N) / N) by lia. reflexivity.
Qed.

Lemma index_fuel i : i / N < S i.
Proof using N_pos.
  pose proof (Nat.Div0.div_le_upper_bound i N i). nia.
Qed.

Lemma at_index_grow a i :
  at_index a i = Some (grow (S (i / N) - blocks a) a, Ref (i / N) (i mod N)).
Proof using N_pos. apply access_grow, index_fuel. Qed.

(** C6.  For every index [i], [operator[]] returns; the reference is
    to slot [i % N] of block number [i / N] of the chain; the chain it
    leaves is the one it found with the missing blocks (and only those)
    allocated and linked at its end, so what earlier references denote
    stays in place; a slot of a well-formed chain is there to be read; and
    the same access done again returns the same reference and allocates
    nothing. *)
Theorem at_index_spec a i :
  let r := Ref (i / N) (i mod N) in
  let a' := grow (S (i / N) - blocks a) a in
  at_index a i = Some (a', r) /\
  at_index a' i = Some (a', r) /\
  blocks a' = Nat.max (blocks a) (S (i / N)) /\
  (forall r0 v, load a r0 = Some v -> load a' r0 = Some v) /\
  (wf a -> wf a' /\ is_Some (load a' r)).
Proof using N_pos.
  intros r a'. rewrite !at_index_grow. fold a' r.
  assert (Hb : blocks a' = Nat.max (blocks a) (S (i / N))).
  { subst a'. rewrite grow_blocks. lia. }
  split; [reflexivity|]. split.
  { replace (S (i / N) - blocks a') with 0 by lia. reflexivity. }
  split; [exact Hb|]. split.
  { intros r0 v. apply grow_load. }
  intros Ha. assert (Ha' : wf a') by now apply grow_wf.
  split; [exact Ha'|]. apply load_wf; [exact Ha'|lia|].
  now apply Nat.mod_upper_bound, Nat.neq_0_lt_0.
Qed.

End chain.

(** [at_index_spec] on a fresh array of two-element blocks, at index 7. *)
Lemma at_index_spec_witness :
  let a := new_lf_array 0 2 in
  let a' := grow 0 2 3 a in
  0 < 2 /\ wf 2 a /\
  at_index 0 2 a 7 = Some (a', Ref 3 1) /\
  at_index 0 2 a' 7 = Some (a', Ref 3 1) /\
  blocks a' = 4 /\
  wf 2 a' /\ is_Some (load a' (Ref 3 1)).
Proof.
  pose proof (at_index_spec 0 2 (Nat.lt_0_succ 1) (new_lf_array 0 2) 7)
    as (H1 & H2 & H3 & _ & H5).
  split; [lia|]. split; [reflexivity|].
  split; [exact H1|]. split; [exact H2|]. split; [exact H3|].
  exact (H5 eq_refl).
Defined.

End LfArrayFacts.

(** ** [lf_fifo]: acknowledging processed elements *)

Module LfFifoFacts.
Import Word LfFifo.
Local Open Scope Z_scope.

Section pop_end.
Context {T : Type}.
Implicit Type q : lf_fifo T.

Lemma pop_end_unfold count q :
  pop_end count q =
  let p := wrap32 (pop (m_ctrl q) + count) in
  if p =? push (m_ctrl q)
  then (0, Fifo (base q) (Ctrl 0 0))
  else (p, Fifo (base q) (Ctrl (push (m_ctrl q)) p)).
Proof.
  unfold pop_end, atomic_op. cbn.
  destruct (wrap32 (pop (m_ctrl q) + count) =? push (m_ctrl q)); reflexivity.
Qed.

(** C4, as amended.  [pop_end(count)] adds [count] to the pop counter
    modulo [2^32]; if the sum equals the push counter, both counters
    become zero in the same step; the result is the pop counter left in
    the control word, and the array is untouched.  A reset always yields
    0.  A result of 0 tells that the counters were reset (the consumer
    caught up with the producer) only when the sum is not itself zero
    modulo [2^32], which holds in particular when [1 <= count] and
    [pop + count] stays below [2^32]. *)
Theorem pop_end_spec count q :
  let p := wrap32 (pop (m_ctrl q) + count) in
  let r := fst (pop_end count q) in
  let q' := snd (pop_end count q) in
  base q' = base q /\
  r = pop (m_ctrl q') /\
  (p = push (m_ctrl q) -> m_ctrl q' = Ctrl 0 0 /\ r = 0) /\
  (p <> push (m_ctrl q) -> m_ctrl q' = Ctrl (push (m_ctrl q)) p /\ r = p) /\
  (r = 0 -> p <> 0 -> p = push (m_ctrl q) /\ m_ctrl q' = Ctrl 0 0) /\
  (r = 0 -> 0 <= pop (m_ctrl q) -> 1 <= count ->
   pop (m_ctrl q) + count < two32 ->
   p = push (m_ctrl q) /\ m_ctrl q' = Ctrl 0 0).
Proof.
  intros p r q'. subst r q'. rewrite pop_end_unfold. fold p. cbv zeta.
  assert (Hsmall : 0 <= pop (m_ctrl q) -> 1 <= count ->
                   pop (m_ctrl q) + count < two32 -> p <> 0).
  { intros Hpop Hc Hlt. subst p.
    rewrite WordFacts.wrap32_small by lia. lia. }
  destruct (Z.eqb_spec p (push (m_ctrl q))) as [He|Hne]; cbn;
    intuition congruence.
Qed.

End pop_end.

(** The amended statement at a concrete queue: three elements reserved,
    two acknowledged, and the third acknowledged now. *)
Lemma pop_end_spec_witness :
  let q := Fifo unit_array (Ctrl 3 2) in
  wrap32 (pop (m_ctrl q) + 1) = push (m_ctrl q) /\
  m_ctrl (snd (pop_end 1 q)) = Ctrl 0 0 /\
  fst (pop_end 1 q) = 0.
Proof.
  split; [reflexivity|].
  exact (proj1 (proj2 (proj2 (pop_end_spec 1 (Fifo unit_array (Ctrl 3 2)))))
           eq_refl).
Defined.

(** C4 as stated fails: a result of 0 does not always signal a reset.
    After [2^32 + 1] reservations and [2^32] acknowledgements, none of which
    emptied the queue, [pop_end()] returns 0 although one element is still
    outstanding and the push counter stays 1.  And [pop_end(0)] returns 0
    on a queue with five reservations and no acknowledgement, which it
    leaves as it is. *)
Lemma pop_end_zero_without_reset :
  let calls := [PushBegin 4294967295; PopEnd 4294967294; PushBegin 2; PopEnd 1] in
  let q := snd (run calls (init unit_array)) in
  let q5 := snd (push_begin 5 (init unit_array)) in
  (fst (run calls (init unit_array)) = [0; 4294967294; 4294967295; 4294967295] /\
   m_ctrl q = Ctrl 1 4294967295 /\
   fst (pop_end1 q) = 0 /\
   m_ctrl (snd (pop_end1 q)) = Ctrl 1 0 /\
   size (snd (pop_end1 q)) = 1) /\
  (m_ctrl q5 = Ctrl 5 0 /\
   fst (pop_end 0 q5) = 0 /\
   m_ctrl (snd (pop_end 0 q5)) = Ctrl 5 0).
Proof. vm_compute. repeat split. Qed.

End LfFifoFacts.

(** ** [lf_hashmap]: the probe sequence *)

Module LfHashmapFacts.
Import LfArray LfArrayFacts LfHashmap.

Section table.
Context {K T : Type} `{EqDecision K}.
Context (key0 : K) (dflt : T) (Hash : K -> nat) (Size : nat).
Hypothesis Size_pos : 0 < Size.
Implicit Type a : lf_array (pair_t K T).
Implicit Type m : lf_hashmap K T.

Local Abbreviation free := (Pair key0 dflt).
Local Abbreviation grow := (LfArray.grow free Size).
Local Abbreviation wf := (LfArray.wf Size).
Local Abbreviation at_index := (LfArray.at_index free Size).
Local Abbreviation probe := (probe key0 dflt Size).
Local Abbreviation at_key := (at_key key0 dflt Hash Size).
Local Abbreviation occupied_by_other := (occupied_by_other key0).

(** The [j]-th probe position lies in block [j], at the offset of the
    first. *)
Lemma probe_position p j :
  p < Size -> (p + j * Size) / Size = j /\ (p + j * Size) mod Size = p.
Proof using Size_pos.
  intros Hp. rewrite Nat.div_add, Nat.Div0.mod_add by lia.
  rewrite Nat.div_small, Nat.mod_small by done. done.
Qed.

Lemma at_index_probe a p j :
  p < Size ->
  at_index a (p + j * Size) = Some (grow (S j - blocks a) a, Ref j p).
Proof using Size_pos.
  intros Hp. destruct (probe_position p j Hp) as [Hd Hm].
  by rewrite (at_index_grow free Size Size_pos), Hd, Hm.
Qed.

(** The block linked last is made of free slots. *)
Lemma install_load_new a s :
  load (install (new_lf_array free Size) a) (Ref (blocks a) s)
  = replicate Size free !! s.
Proof.
  unfold load. cbn [ref_block ref_slot].
  induction a as [d|d nxt IH] using chain_ind; cbn; [done|apply IH].
Qed.

Lemma load_store a r v :
  is_Some (load a r) -> load (store a r v) r = Some v.
Proof.
  destruct r as [b s]. unfold load, store. cbn [ref_block ref_slot].
  revert b. induction a as [d|d nxt IH] using chain_ind; intros [|b];
    cbn; try (intros [? ?]; done).
  - intros Hs. apply list_lookup_insert_eq. by apply lookup_lt_is_Some_1.
  - intros Hs. apply list_lookup_insert_eq. by apply lookup_lt_is_Some_1.
  - apply IH.
Qed.

Section probing.
Variable k : K.
Hypothesis k_real : k <> key0.
Variable p : nat.
Hypothesis p_lt : p < Size.

(** The loop from its [j]-th round on. *)
Lemma probe_from fuel a j :
  wf a -> j <= blocks a -> blocks a - j < fuel ->
  exists j' pr,
    j <= j' /\
    (forall i, j <= i < j' -> occupied_by_other k a i p) /\
    j' <= blocks a /\
    load (grow (S j' - blocks a) a) (Ref j' p) = Some pr /\
    ((key pr = k /\ j' < blocks a /\
      probe fuel k a (p + j * Size) = Some (a, Ref j' p)) \/
     (key pr = key0 /\
      probe fuel k a (p + j * Size) =
      Some (store (grow (S j' - blocks a) a) (Ref j' p) (Pair k (value pr)),
            Ref j' p))).
Proof using Size_pos k_real p_lt.
  revert j. induction fuel as [|fuel IH]; intros j Hwf Hj Hfuel; [lia|].
  cbn [LfHashmap.probe]. rewrite (at_index_probe a p j p_lt).
  destruct (decide (j = blocks a)) as [->|Hne].
  - replace (S (blocks a) - blocks a) with 1 by lia.
    cbn [LfArray.grow]. rewrite install_load_new.
    rewrite lookup_replicate_2 by done. cbn [key].
    rewrite decide_False by congruence.
    unfold compare_and_swap_test. cbn [key value].
    rewrite decide_True by done.
    exists (blocks a), free. split; [done|]. split; [intros; lia|].
    split; [done|].
    replace (S (blocks a) - blocks a) with 1 by lia. cbn [LfArray.grow].
    rewrite install_load_new, lookup_replicate_2 by done.
    split; [done|]. right. done.
  - assert (Hlt : j < blocks a) by lia.
    replace (S j - blocks a) with 0 by lia. cbn [LfArray.grow].
    destruct (load_wf Size a j p Hwf Hlt p_lt) as [pr Hpr].
    rewrite Hpr.
    destruct (decide (key pr = k)) as [Hk|Hk].
    { exists j, pr. split; [done|]. split; [intros; lia|]. split; [lia|].
      replace (S j - blocks a) with 0 by lia. cbn [LfArray.grow].
      split; [done|]. left. done. }
    unfold compare_and_swap_test.
    destruct (decide (key pr = key0)) as [H0|H0].
    { exists j, pr. split; [done|]. split; [intros; lia|]. split; [lia|].
      replace (S j - blocks a) with 0 by lia. cbn [LfArray.grow].
      split; [done|]. right. done. }
    replace (p + j * Size + Size) with (p + S j * Size) by lia.
    destruct (IH (S j) Hwf ltac:(lia) ltac:(lia))
      as (j' & pr' & Hle & Hocc & Hj' & Hload & Hres).
    exists j', pr'. split; [lia|]. split.
    { intros i Hi. destruct (decide (i = j)) as [->|Hij].
      - exists (key pr). unfold key_at. rewrite Hpr. done.
      - apply Hocc. lia. }
    split; [done|]. split; [done|]. exact Hres.
Qed.

End probing.

(** C5.  With the default key, [operator[]] returns [m_default_key_data]
    and the map as it was.  With any other key [k] it returns once the
    loop has one round more than the table has blocks: round [i] looks at
    position [Hash(k) % Size + i * Size], which is slot [Hash(k) % Size]
    of block [i]; the rounds before the last find keys that are neither
    [k] nor free; the last round, [j], finds [k], and the reference to that
    slot's value is returned with the map as it was, or finds the free
    key, stores [k] over it and returns the reference to that slot's value.
    (Round [j] is in a block linked by this very access when all blocks
    before were taken.) *)
Theorem at_key_spec fuel k m :
  wf (m_data m) ->
  let p := Hash k mod Size in
  (k = key0 -> at_key fuel k m = Some (m, DefaultKeyData)) /\
  (k <> key0 -> blocks (m_data m) < fuel ->
   exists j pr,
     let a' := grow (S j - blocks (m_data m)) (m_data m) in
     let r := Ref j p in
     (forall i, i < j ->
        at_index (m_data m) (p + i * Size) = Some (m_data m, Ref i p) /\
        occupied_by_other k (m_data m) i p) /\
     at_index (m_data m) (p + j * Size) = Some (a', r) /\
     load a' r = Some pr /\
     ((key pr = k /\ at_key fuel k m = Some (m, PairValue r) /\
       deref m (PairValue r) = Some (value pr)) \/
      (key pr = key0 /\
       let m' := Hashmap (store a' r (Pair k (value pr)))
                         (m_default_key_data m) in
       at_key fuel k m = Some (m', PairValue r) /\
       key_at (m_data m') j p = Some k /\
       deref m' (PairValue r) = Some (value pr)))).
Proof using Size_pos.
  intros Hwf p. split.
  { intros ->. unfold LfHashmap.at_key. by rewrite decide_True. }
  intros Hk Hfuel.
  assert (Hp : p < Size) by (apply Nat.mod_upper_bound; lia).
  destruct (probe_from k Hk p Hp fuel (m_data m) 0 Hwf ltac:(lia) ltac:(lia))
    as (j & pr & _ & Hocc & Hj & Hload & Hres).
  exists j, pr. cbv zeta. split.
  { intros i Hi. split; [|apply Hocc; lia].
    rewrite (at_index_probe _ p i Hp).
    replace (S i - blocks (m_data m)) with 0 by lia. done. }
  split; [by apply at_index_probe|]. split; [done|].
  unfold LfHashmap.at_key. rewrite decide_False by done.
  fold p. replace (p + 0 * Size) with p in Hres by lia.
  destruct Hres as [(Hkey & Hlt & ->)|(Hkey & ->)].
  - left. split; [done|]. split; [by destruct m|].
    replace (S j - blocks (m_data m)) with 0 in Hload by lia.
    cbn [LfArray.grow] in Hload. cbn [deref]. by rewrite Hload.
  - right. split; [done|]. cbv zeta. split; [done|].
    unfold key_at. cbn [deref m_data].
    rewrite load_store by (by rewrite Hload). done.
Qed.

End table.

(** [at_key_spec] on a table of four-slot blocks with the identity as
    hash: key 5 sits in slot 1 of the only block and key 9 is looked up, so
    the second round claims slot 1 of a new block. *)
Lemma at_key_spec_witness :
  let a := Block [Pair 0 0; Pair 5 50; Pair 0 0; Pair 0 0] None in
  let m := Hashmap a 0 in
  0 < 4 /\ LfArray.wf 4 a /\ 9 <> 0 /\ blocks a < 2 /\
  at_key 0 0 id 4 2 0 m = Some (m, DefaultKeyData) /\
  exists j pr,
    (forall i, i < j ->
       LfArray.at_index (Pair 0 0) 4 a (1 + i * 4) = Some (a, Ref i 1) /\
       occupied_by_other 0 9 a i 1) /\
    LfArray.at_index (Pair 0 0) 4 a (1 + j * 4)
    = Some (LfArray.grow (Pair 0 0) 4 (S j - 1) a, Ref j 1) /\
    load (LfArray.grow (Pair 0 0) 4 (S j - 1) a) (Ref j 1) = Some pr /\
    ((key pr = 9 /\ at_key 0 0 id 4 2 9 m = Some (m, PairValue (Ref j 1)) /\
      deref m (PairValue (Ref j 1)) = Some (value pr)) \/
     (key pr = 0 /\
      let m' := Hashmap (store (LfArray.grow (Pair 0 0) 4 (S j - 1) a)
                               (Ref j 1) (Pair 9 (value pr))) 0 in
      at_key 0 0 id 4 2 9 m = Some (m', PairValue (Ref j 1)) /\
      key_at (m_data m') j 1 = Some 9 /\
      deref m' (PairValue (Ref j 1)) = Some (value pr))).
Proof.
  pose proof (at_key_spec 0 0 id 4 (Nat.lt_0_succ 3) 2) as Hspec.
  assert (Hwf : LfArray.wf 4 (Block [Pair 0 0; Pair 5 50; Pair 0 0; Pair 0 0] None))
    by reflexivity.
  split; [lia|]. split; [exact Hwf|]. split; [discriminate|].
  split; [cbn; lia|]. split.
  - exact (proj1 (Hspec 0 (Hashmap _ 0) Hwf) eq_refl).
  - refine (proj2 (Hspec 9 (Hashmap _ 0) Hwf) _ _); [discriminate|cbn; lia].
Defined.

(** The same lookup, evaluated: block 1 is linked and its slot 1 takes
    key 9. *)
Example at_key_collision :
  let a := Block [Pair 0 0; Pair 5 50; Pair 0 0; Pair 0 0] None in
  at_key 0 0 id 4 2 9 (Hashmap a 0) =
  Some (Hashmap (Block [Pair 0 0; Pair 5 50; Pair 0 0; Pair 0 0]
                   (Some (Block [Pair 0 0; Pair 9 0; Pair 0 0; Pair 0 0] None))) 0,
        PairValue (Ref 1 1)).
Proof. reflexivity. Qed.

End LfHashmapFacts.

(** ** [lf_spsc]: order, failure and the guarded commits *)

Module LfSpscFacts.
Import Word WordFacts LfSpsc.
Local Open Scope Z_scope.

Section ring.
Context {T : Type} (dflt : T) (N : Z).
Hypothesis HN : static_assert N.
Implicit Type q : lf_spsc T.
Implicit Type l : list T.

Local Abbreviation holds := (holds N).
Local Abbreviation try_push := (try_push N).
Local Abbreviation try_pop := (try_pop N).
Local Abbreviation end_push := (end_push N).
Local Abbreviation init := (init dflt N).

Lemma N_bound : 0 < N <= 2 ^ 31.
Proof using HN. now apply static_assert_bound. Qed.

Lemma holds_init : holds init [].
Proof using HN.
  pose proof N_bound. unfold holds, init, size, is_u32; cbn.
  rewrite length_replicate, two32_eq.
  repeat split; try lia; try reflexivity.
Qed.

(** The slot under the push cursor is the one after the last value. *)
Lemma push_slot q l :
  holds q l -> m_push q mod N = (m_pop q + Z.of_nat (length l)) mod N.
Proof using HN.
  intros (_ & _ & _ & Hsz & _). rewrite <- Hsz. unfold size.
  rewrite Zplus_mod, (wrap32_mod N _ HN), <- Zplus_mod.
  f_equal. ring.
Qed.

Lemma slot_index_lt i : 0 <= i mod N < N.
Proof using HN. pose proof N_bound. apply Z.mod_pos_bound. lia. Qed.

Lemma try_push_full data q l :
  holds q l -> Z.of_nat (length l) = N -> try_push data q = (false, q).
Proof using HN.
  intros (_ & _ & _ & Hsz & _) Hfull. unfold LfSpsc.try_push.
  unfold size in Hsz. rewrite Hsz, Hfull, Z.leb_refl. reflexivity.
Qed.

(** Writing the slot under the push cursor of a ring that is not full
    leaves the values it holds alone. *)
Lemma holds_store data q l :
  holds q l -> Z.of_nat (length l) < N ->
  let q' := Spsc (m_push q) (m_pop q)
                 (<[Z.to_nat (m_push q mod N) := data]> (m_data q)) in
  holds q' l /\ slot q' (m_push q mod N) = Some data.
Proof using HN.
  intros Hq Hroom. pose proof N_bound as HNb.
  pose proof (push_slot q l Hq) as Hslot.
  destruct Hq as (Hpu & Hpo & Hlen & Hsz & Hle & Hsl).
  cbv zeta. unfold LfSpsc.holds, size, slot in *; cbn.
  split.
  - split; [exact Hpu|]. split; [exact Hpo|].
    split; [now rewrite length_insert|].
    split; [exact Hsz|]. split; [exact Hle|].
    intros k Hk. rewrite list_lookup_insert_ne; [now apply Hsl|].
    rewrite Hslot. intros Heq. apply Z2Nat.inj in Heq;
      try apply slot_index_lt.
    symmetry in Heq. revert Heq. apply mod_apart; lia.
  - apply list_lookup_insert_eq. rewrite Hlen.
    pose proof (slot_index_lt (m_push q)). lia.
Qed.

(** Advancing the push cursor over a written slot adds its value at the
    young end. *)
Lemma holds_publish data q l :
  holds q l -> Z.of_nat (length l) < N ->
  slot q (m_push q mod N) = Some data ->
  holds (Spsc (wrap32 (m_push q + 1)) (m_pop q) (m_data q)) (l ++ [data]).
Proof using HN.
  intros Hq Hroom Hdata. pose proof N_bound as HNb.
  pose proof (push_slot q l Hq) as Hslot.
  destruct Hq as (Hpu & Hpo & Hlen & Hsz & Hle & Hsl).
  unfold LfSpsc.holds, size, slot in *; cbn.
  split; [apply wrap32_range|]. split; [exact Hpo|].
  split; [exact Hlen|].
  rewrite length_app; cbn [length].
  split.
  { rewrite wrap32_sub_l.
    replace (m_push q + 1 - m_pop q) with (m_push q - m_pop q + 1) by ring.
    rewrite <- wrap32_add_l, Hsz, wrap32_small; [lia|].
    rewrite two32_eq. lia. }
  split; [lia|].
  intros k Hk.
  destruct (decide (k = length l)) as [->|Hne].
  - rewrite <- Hslot, Hdata.
    rewrite lookup_app_r, Nat.sub_diag by lia. reflexivity.
  - rewrite lookup_app_l by lia. apply Hsl. lia.
Qed.

(** Advancing the pop cursor drops the oldest value. *)
Lemma holds_advance q v l :
  holds q (v :: l) ->
  slot q (m_pop q mod N) = Some v /\
  holds (Spsc (m_push q) (wrap32 (m_pop q + 1)) (m_data q)) l.
Proof using HN.
  intros (Hpu & Hpo & Hlen & Hsz & Hle & Hsl). pose proof N_bound as HNb.
  cbn [length] in *.
  split.
  { specialize (Hsl O ltac:(lia)). cbn in Hsl.
    now rewrite Z.add_0_r in Hsl. }
  unfold LfSpsc.holds, size, slot in *; cbn.
  split; [exact Hpu|]. split; [apply wrap32_range|].
  split; [exact Hlen|].
  split.
  { rewrite wrap32_sub_r.
    replace (m_push q - (m_pop q + 1)) with (m_push q - m_pop q - 1) by ring.
    rewrite <- wrap32_sub_l, Hsz, wrap32_small; [lia|].
    rewrite two32_eq. lia. }
  split; [lia|].
  intros k Hk.
  rewrite Zplus_mod, (wrap32_mod N _ HN), <- Zplus_mod.
  replace (m_pop q + 1 + Z.of_nat k) with (m_pop q + Z.of_nat (S k)) by lia.
  apply (Hsl (S k)). lia.
Qed.

Lemma try_push_room data q l :
  holds q l -> Z.of_nat (length l) < N ->
  exists q', try_push data q = (true, q') /\ holds q' (l ++ [data]) /\
             m_pop q' = m_pop q.
Proof using HN.
  intros Hq Hroom.
  destruct (holds_store data q l Hq Hroom) as [Hq1 Hslot].
  pose proof (holds_publish data _ l Hq1 Hroom Hslot) as Hq2.
  destruct Hq as (_ & _ & _ & Hsz & _).
  unfold LfSpsc.try_push. unfold size in Hsz. rewrite Hsz.
  destruct (Z.leb_spec N (Z.of_nat (length l))) as [?|_]; [lia|].
  eexists. split; [reflexivity|]. split; [exact Hq2|reflexivity].
Qed.

Lemma try_pop_empty out q :
  holds q [] -> try_pop out q = (false, out, q).
Proof using HN.
  intros (_ & _ & _ & Hsz & _). unfold LfSpsc.try_pop.
  unfold size in Hsz. rewrite Hsz. reflexivity.
Qed.

Lemma try_pop_some out q v l :
  holds q (v :: l) ->
  exists q', try_pop out q = (true, v, q') /\ holds q' l /\
             m_push q' = m_push q /\ m_data q' = m_data q.
Proof using HN.
  intros Hq. destruct (holds_advance q v l Hq) as [Hv Hq'].
  destruct Hq as (_ & _ & _ & Hsz & _).
  unfold LfSpsc.try_pop. unfold size in Hsz. rewrite Hsz.
  cbn [length].
  destruct (Z.leb_spec (Z.of_nat (S (length l))) 0) as [?|_]; [lia|].
  rewrite Hv. cbn [default].
  eexists. split; [reflexivity|]. split; [exact Hq'|split; reflexivity].
Qed.

(** Committing a slot is pushing the value the slot already has. *)
Lemma end_push_try_push q x :
  slot q (m_push q mod N) = Some x -> end_push q = snd (try_push x q).
Proof.
  intros Hx. unfold LfSpsc.end_push, LfSpsc.try_push.
  destruct (Z.ltb_spec (wrap32 (m_push q - m_pop q)) N),
           (Z.leb_spec N (wrap32 (m_push q - m_pop q))); try lia;
    cbn; [|reflexivity].
  unfold slot in Hx. now rewrite list_insert_id.
Qed.

(** Acknowledging an element is popping it without reading it. *)
Lemma end_pop_try_pop out q : end_pop q = snd (try_pop out q).
Proof.
  unfold LfSpsc.end_pop, LfSpsc.try_pop.
  destruct (Z.ltb_spec 0 (wrap32 (m_push q - m_pop q))),
           (Z.leb_spec (wrap32 (m_push q - m_pop q)) 0); try lia;
    reflexivity.
Qed.

Lemma step_holds o q l : holds q l -> exists l', holds (step dflt N o q) l'.
Proof using HN.
  intros Hq. pose proof Hq as (_ & _ & Hlen & _ & Hle & _).
  assert (Hpush : forall x, exists l', holds (snd (try_push x q)) l').
  { intros x. destruct (Z.eq_dec (Z.of_nat (length l)) N) as [Hfull|Hroom].
    - rewrite (try_push_full x q l Hq Hfull). now exists l.
    - destruct (try_push_room x q l Hq ltac:(lia)) as (q' & -> & Hq' & _).
      now exists (l ++ [x]). }
  assert (Hpop : forall out, exists l', holds (snd (try_pop out q)) l').
  { intros out. destruct l as [|v l].
    - rewrite (try_pop_empty out q Hq). now exists [].
    - destruct (try_pop_some out q v l Hq) as (q' & -> & Hq' & _).
      now exists l. }
  destruct o as [data| | |]; cbn.
  - apply Hpush.
  - apply Hpop.
  - destruct (lookup_lt_is_Some_2 (m_data q) (Z.to_nat (m_push q mod N)))
      as [x Hx].
    { rewrite Hlen. pose proof (slot_index_lt (m_push q)). lia. }
    rewrite (end_push_try_push q x Hx). apply Hpush.
  - rewrite (end_pop_try_pop dflt). apply Hpop.
Qed.

Lemma reachable_holds q : reachable dflt N q -> exists l, holds q l.
Proof using HN.
  induction 1 as [|o q _ [l Hl]].
  - exists []. apply holds_init.
  - now apply (step_holds o q l).
Qed.

Lemma lookup_all l :
  map (fun k : nat => l !! k) (seq 0 (length l)) = Some <$> l.
Proof.
  induction l as [|a l IH]; [reflexivity|].
  cbn [length seq map]. rewrite <- seq_shift, map_map, fmap_cons, <- IH.
  reflexivity.
Qed.

Lemma pending_holds q l : holds q l -> pending N q = Some <$> l.
Proof using HN.
  intros (_ & Hpo & _ & Hsz & Hle & Hsl). pose proof N_bound as HNb.
  unfold pending. rewrite Hsz, Nat2Z.id, <- lookup_all.
  apply map_ext_in. intros k Hk. apply in_seq in Hk.
  unfold direct. rewrite (wrap64_mod N _ HN). apply Hsl. lia.
Qed.

Lemma perform_holds c q lg l :
  holds q l -> accepted lg = delivered lg ++ l ->
  exists l', holds (fst (perform dflt N c (q, lg))) l' /\
    accepted (snd (perform dflt N c (q, lg))) =
    delivered (snd (perform dflt N c (q, lg))) ++ l'.
Proof using HN.
  intros Hq Hlog. pose proof Hq as (_ & _ & _ & _ & Hle & _).
  destruct c as [data|]; cbn.
  - destruct (Z.eq_dec (Z.of_nat (length l)) N) as [Hfull|Hroom].
    + rewrite (try_push_full data q l Hq Hfull). now exists l.
    + destruct (try_push_room data q l Hq ltac:(lia)) as (q' & -> & Hq' & _).
      exists (l ++ [data]). split; [exact Hq'|]. cbn.
      now rewrite Hlog, app_assoc.
  - destruct l as [|v l].
    + rewrite (try_pop_empty dflt q Hq). now exists [].
    + destruct (try_pop_some dflt q v l Hq) as (q' & -> & Hq' & _).
      exists l. split; [exact Hq'|]. cbn.
      now rewrite Hlog, <- app_assoc.
Qed.

Lemma run_holds cs q lg l :
  holds q l -> accepted lg = delivered lg ++ l ->
  exists l', holds (fst (run dflt N cs (q, lg))) l' /\
    accepted (snd (run dflt N cs (q, lg))) =
    delivered (snd (run dflt N cs (q, lg))) ++ l'.
Proof using HN.
  revert q lg l. induction cs as [|c cs IH]; intros q lg l Hq Hlog.
  - now exists l.
  - change (run dflt N (c :: cs) (q, lg))
      with (run dflt N cs (perform dflt N c (q, lg))).
    destruct (perform_holds c q lg l Hq Hlog) as (l' & Hq' & Hlog').
    destruct (perform dflt N c (q, lg)) as [q' lg'].
    apply (IH q' lg' l' Hq' Hlog').
Qed.

(** *** Schedules of the two threads, access by access *)







(** A call whose accesses are not interleaved with the other thread is a
    call of the member function. *)
Lemma uninterrupted_push data q co lg :
  interleave dflt N
    [CallPush data; ProducerStep; ProducerStep; ProducerStep; ProducerStep]
    (System q PIdle co lg) =
  System (fst (perform dflt N (Push data) (q, lg))) PIdle co
         (snd (perform dflt N (Push data) (q, lg))).
Proof.
  cbn. unfold LfSpsc.try_push.
  destruct (N <=? wrap32 (m_push q - m_pop q)); reflexivity.
Qed.

Lemma uninterrupted_pop q pr lg :
  interleave dflt N
    [CallPop; ConsumerStep; ConsumerStep; ConsumerStep; ConsumerStep]
    (System q pr CIdle lg) =
  System (fst (perform dflt N Pop (q, lg))) pr CIdle
         (snd (perform dflt N Pop (q, lg))).
Proof.
  cbn. unfold LfSpsc.try_pop.
  destruct (wrap32 (m_push q - m_pop q) <=? 0); reflexivity.
Qed.

(** C1.  Whatever calls of [try_push] and [try_pop] are made on an
    empty ring, one after the other, the values delivered by the
    successful [try_pop] calls are the values accepted by the successful
    [try_push] calls, in the same order: the delivered values followed by
    the [size()] values still in the ring (as [operator[]] shows them,
    oldest first) are exactly the accepted values.  Once the ring is
    empty again both sequences are equal. *)
Theorem fifo_order cs :
  let s := run dflt N cs (init, Log [] []) in
  exists rest,
    accepted (snd s) = delivered (snd s) ++ rest /\
    pending N (fst s) = Some <$> rest /\
    size (fst s) = Z.of_nat (length rest) /\
    (size (fst s) = 0 -> delivered (snd s) = accepted (snd s)).
Proof using HN.
  cbv zeta.
  destruct (run_holds cs init (Log [] []) [] holds_init eq_refl)
    as (rest & Hq & Hlog).
  exists rest. pose proof Hq as (_ & _ & _ & Hsz & _).
  split; [exact Hlog|]. split; [now apply pending_holds|].
  split; [exact Hsz|].
  intros H0. rewrite H0 in Hsz. destruct rest; [|discriminate].
  now rewrite Hlog, app_nil_r.
Qed.

(** C7.  In every ring reachable from the empty one by [try_push],
    [try_pop], [end_push] and [end_pop], [try_push] returns false exactly
    when [size() == N] and [try_pop] returns false exactly when
    [size() == 0]; a call that returns false leaves the ring (and [out])
    as it was. *)
Theorem try_fail_iff q data out :
  reachable dflt N q ->
  (fst (try_push data q) = false <-> size q = N) /\
  (fst (try_push data q) = false -> snd (try_push data q) = q) /\
  (fst (fst (try_pop out q)) = false <-> size q = 0) /\
  (fst (fst (try_pop out q)) = false -> try_pop out q = (false, out, q)).
Proof using HN.
  intros Hr. destruct (reachable_holds q Hr) as [l Hq].
  pose proof Hq as (_ & _ & _ & Hsz & Hle & _).
  assert (Hpush : (fst (try_push data q) = false <-> size q = N) /\
                  (fst (try_push data q) = false -> snd (try_push data q) = q)).
  { destruct (Z.eq_dec (Z.of_nat (length l)) N) as [Hfull|Hroom].
    - rewrite (try_push_full data q l Hq Hfull). cbn. intuition lia.
    - destruct (try_push_room data q l Hq ltac:(lia)) as (q' & -> & _).
      cbn. intuition (try discriminate; lia). }
  assert (Hpop : (fst (fst (try_pop out q)) = false <-> size q = 0) /\
                 (fst (fst (try_pop out q)) = false ->
                  try_pop out q = (false, out, q))).
  { destruct l as [|v l].
    - rewrite (try_pop_empty out q Hq). cbn in *. intuition lia.
    - destruct (try_pop_some out q v l Hq) as (q' & -> & _).
      cbn in *. intuition (try discriminate; lia). }
  tauto.
Qed.

(** C10.  [end_push()] on a full ring ([m_push - m_pop >= N]) returns
    the ring as it is, cursor and slots, and [end_pop()] on an empty ring
    ([m_push == m_pop]) returns the ring as it is; away from these
    boundaries each advances its cursor by one. *)
Theorem end_push_end_pop_guarded q :
  (N <= wrap32 (m_push q - m_pop q) -> end_push q = q) /\
  (m_push q = m_pop q -> end_pop q = q) /\
  (wrap32 (m_push q - m_pop q) < N ->
   end_push q = Spsc (wrap32 (m_push q + 1)) (m_pop q) (m_data q)) /\
  (0 < wrap32 (m_push q - m_pop q) ->
   end_pop q = Spsc (m_push q) (wrap32 (m_pop q + 1)) (m_data q)).
Proof.
  unfold LfSpsc.end_push, LfSpsc.end_pop.
  repeat split.
  - intros H. destruct (Z.ltb_spec (wrap32 (m_push q - m_pop q)) N);
      [lia|reflexivity].
  - intros ->. now rewrite Z.sub_diag.
  - intros H. destruct (Z.ltb_spec (wrap32 (m_push q - m_pop q)) N);
      [reflexivity|lia].
  - intros H. destruct (Z.ltb_spec 0 (wrap32 (m_push q - m_pop q)));
      [reflexivity|lia].
Qed.

End ring.

Lemma static_assert_2 : static_assert 2.
Proof. split; [split|]; reflexivity. Qed.

(** [fifo_order] on a run with a refused push and a refused pop. *)
Lemma fifo_order_witness :
  let cs := [Push 1%nat; Push 2%nat; Push 3%nat; Pop; Push 4%nat; Pop; Pop; Pop] in
  let s := run 0%nat 2 cs (init 0%nat 2, Log [] []) in
  static_assert 2 /\
  exists rest,
    accepted (snd s) = delivered (snd s) ++ rest /\
    pending 2 (fst s) = Some <$> rest /\
    size (fst s) = Z.of_nat (length rest) /\
    (size (fst s) = 0 -> delivered (snd s) = accepted (snd s)).
Proof.
  split; [exact static_assert_2|].
  exact (fifo_order 0%nat 2 static_assert_2
           [Push 1%nat; Push 2%nat; Push 3%nat; Pop; Push 4%nat; Pop; Pop; Pop]).
Defined.

(** [try_fail_iff] on a full ring of two slots. *)
Lemma try_fail_iff_witness :
  let q := step 0%nat 2 (TryPush 8%nat) (step 0%nat 2 (TryPush 7%nat) (init 0%nat 2)) in
  static_assert 2 /\ reachable 0%nat 2 q /\
  (fst (try_push 2 9%nat q) = false <-> size q = 2) /\
  (fst (try_push 2 9%nat q) = false -> snd (try_push 2 9%nat q) = q) /\
  (fst (fst (try_pop 2 5%nat q)) = false <-> size q = 0) /\
  (fst (fst (try_pop 2 5%nat q)) = false -> try_pop 2 5%nat q = (false, 5%nat, q)).
Proof.
  split; [exact static_assert_2|].
  split; [do 2 apply reachable_step; apply reachable_init|].
  apply (try_fail_iff 0%nat 2 static_assert_2).
  do 2 apply reachable_step. apply reachable_init.
Defined.

(** [end_push_end_pop_guarded] on a full ring and on an empty ring. *)
Lemma end_push_end_pop_guarded_witness :
  let full := Spsc 2 0 [7%nat; 8%nat] in
  let empty := Spsc 5 5 [7%nat; 8%nat] in
  2 <= wrap32 (m_push full - m_pop full) /\ end_push 2 full = full /\
  m_push empty = m_pop empty /\ end_pop empty = empty.
Proof.
  split; [vm_compute; discriminate|].
  split; [apply (end_push_end_pop_guarded 2 (Spsc 2 0 [7%nat; 8%nat]));
          vm_compute; discriminate|].
  split; [reflexivity|].
  apply (end_push_end_pop_guarded 2 (Spsc 5 5 [7%nat; 8%nat])). reflexivity.
Defined.

End LfSpscFacts.

(** ** [lf_mpsc]: the reservation word *)

Module LfMpscFacts.
Import Word WordFacts LfMpsc.
Local Open Scope Z_scope.

Section ring.
Context {T : Type} (N : Z).
Implicit Type q : lf_mpsc T.

Local Abbreviation release := (release (T := T)).
Local Abbreviation push_ptr := (push_ptr N).

Lemma wrap32_moves p a :
  is_u32 p -> 0 < a < two32 -> wrap32 (p + a) <> p.
Proof.
  unfold is_u32, wrap32. rewrite two32_eq. intros Hp Ha.
  Z.div_mod_to_equations. lia.
Qed.

(** A word whose halves are equal and which is not zero counts at least
    one reservation. *)
Lemma fires_ack_pos value :
  is_u64 value -> value <> 0 -> rel_count value = ack_count value ->
  0 < ack_count value < two32.
Proof.
  unfold is_u64, rel_count, ack_count, c_rel. rewrite two64_eq, two32_eq.
  intros Hv Hnz Heq. Z.div_mod_to_equations. lia.
Qed.

Lemma release_unfold value q :
  release value q =
  if negb (value =? 0) && (ack_count value =? rel_count value) then
    Mpsc (LfSpsc.Spsc (wrap32 (m_push q + ack_count value)) (m_pop q) (m_data q))
         (if m_lock q =? value then 0 else m_lock q)
  else q.
Proof.
  unfold LfMpsc.release, compare_and_swap_test, set_push, set_lock,
    ack_count, rel_count.
  destruct (negb (value =? 0) && (value mod c_rel =? value / c_rel));
    [|reflexivity].
  cbn. destruct (m_lock q =? value); reflexivity.
Qed.

(** C8.  [release(value)] acts exactly when [value] is not zero and its
    release count (high half) equals its ack count (low half).  It then
    advances [m_push] by that count, in 32-bit arithmetic, which moves
    the cursor, and the exchange sets [m_lock] to zero provided [m_lock]
    still holds [value]; [m_pop] and the slots stay.  In every other
    case the ring is returned as it is. *)
Theorem release_spec value q :
  is_u64 value -> is_u32 (m_push q) ->
  let fires := value <> 0 /\ rel_count value = ack_count value in
  (fires ->
     m_push (release value q) = wrap32 (m_push q + ack_count value) /\
     m_push (release value q) <> m_push q /\
     m_lock (release value q) = (if m_lock q =? value then 0 else m_lock q) /\
     (m_lock q = value -> m_lock (release value q) = 0) /\
     m_pop (release value q) = m_pop q /\
     m_data (release value q) = m_data q) /\
  (~ fires -> release value q = q) /\
  (release value q <> q <-> fires).
Proof.
  intros Hv Hp fires. rewrite release_unfold.
  destruct (Z.eqb_spec value 0) as [Hz|Hnz]; cbn [negb andb].
  { subst fires. intuition congruence. }
  destruct (Z.eqb_spec (ack_count value) (rel_count value)) as [Heq|Hne].
  2:{ subst fires. intuition congruence. }
  pose proof (fires_ack_pos value Hv Hnz (eq_sym Heq)) as Hack.
  pose proof (wrap32_moves (m_push q) (ack_count value) Hp Hack) as Hmove.
  assert (Hf : fires) by (subst fires; split; congruence).
  unfold m_push, m_pop, m_data in *. cbn.
  repeat split; try tauto.
  - intros ->. now rewrite Z.eqb_refl.
  - congruence.
  - intros _ Heq'. apply Hmove.
    apply (f_equal (fun x => LfSpsc.m_push (spsc x))) in Heq'. exact Heq'.
Qed.

Hypothesis HN : LfSpsc.static_assert N.

(** With fewer than [N] reservations counted in the word, the test of
    [operator T*()] is the intended one. *)
Lemma refuses_below old pos pop :
  ack_count old < N -> 0 <= old ->
  refuses N old pos pop = (N - ack_count old <=? wrap32 (pos - pop)).
Proof using HN.
  intros Hack Hold. pose proof (static_assert_bound N HN) as HNb.
  assert (Hmod : old mod N = ack_count old).
  { unfold ack_count, c_rel. change (2 ^ 32) with two32.
    rewrite <- (wrap32_mod N old HN). unfold wrap32.
    apply Z.mod_small. split; [|exact Hack].
    apply Z.mod_pos_bound. reflexivity. }
  unfold refuses. rewrite Hmod.
  assert (0 <= ack_count old).
  { unfold ack_count, c_rel. apply Z.mod_pos_bound. reflexivity. }
  destruct (Z.leb_spec N (ack_count old)); [lia|]. cbn.
  rewrite wrap64_small; [reflexivity|]. rewrite two64_eq. lia.
Qed.

(** Below [N] reservations [operator T*()] does what it is meant to: it
    returns null exactly when the published elements and the
    reservations fill the ring; on that path the word is put back and a
    complete batch is flushed; otherwise the pointer is to slot
    [(m_push + ack) % N] and the word counts one more reservation. *)
Lemma push_ptr_below q :
  0 <= m_lock q -> m_lock q + 1 < two64 -> ack_count (m_lock q) < N ->
  (fst (push_ptr q) = None <-> full_with N (m_lock q) q) /\
  (fst (push_ptr q) = None -> snd (push_ptr q) = release (m_lock q) q) /\
  (forall ptr, fst (push_ptr q) = Some ptr ->
     ptr = (m_push q + ack_count (m_lock q)) mod N /\
     snd (push_ptr q) = set_lock (m_lock q + 1) q).
Proof using HN.
  intros H0 H1 Hack. unfold LfMpsc.push_ptr, c_ack.
  change (m_push (set_lock (wrap64 (m_lock q + 1)) q)) with (m_push q).
  change (m_pop (set_lock (wrap64 (m_lock q + 1)) q)) with (m_pop q).
  rewrite (refuses_below _ _ _ Hack H0).
  rewrite (wrap64_small (m_lock q + 1)) by lia.
  unfold full_with, size, LfSpsc.size. fold (m_push q) (m_pop q).
  destruct (Z.leb_spec (N - ack_count (m_lock q)) (wrap32 (m_push q - m_pop q)))
    as [Hfull|Hroom]; cbn [fst snd].
  - split; [split; [lia|reflexivity]|]. split; [|discriminate].
    intros _. cbn. replace (m_lock q + 1 - 1) with (m_lock q) by ring.
    rewrite wrap64_small by lia. destruct q; reflexivity.
  - split; [split; [discriminate|lia]|]. split; [discriminate|].
    intros ptr [= <-]. split; [|reflexivity].
    rewrite (wrap64_mod N _ HN).
    rewrite Zplus_mod, <- (wrap32_mod N (m_lock q) HN), <- Zplus_mod.
    reflexivity.
Qed.

(** With exactly [N] reservations counted and room by the cursors alone,
    the test lets the request through, to the slot of the first of those
    reservations. *)
Lemma push_ptr_at_capacity q :
  m_lock q = N -> size q < N ->
  fst (push_ptr q) = Some (m_push q mod N) /\
  full_with N (m_lock q) q.
Proof using HN.
  intros Hlock Hsize. pose proof (static_assert_bound N HN) as HNb.
  pose proof (wrap32_range (m_push q - m_pop q)) as Hsz.
  assert (HNmod : N mod N = 0) by (apply Z.mod_same; lia).
  split.
  - unfold LfMpsc.push_ptr, refuses, c_ack. rewrite Hlock.
    change (m_push (set_lock (wrap64 (N + 1)) q)) with (m_push q).
    change (m_pop (set_lock (wrap64 (N + 1)) q)) with (m_pop q).
    unfold size, LfSpsc.size in Hsize. fold (m_push q) (m_pop q) in Hsize.
    rewrite HNmod, Z.sub_0_r, wrap64_small by (rewrite two64_eq; lia).
    destruct (Z.leb_spec N 0); [lia|].
    destruct (Z.leb_spec N (wrap32 (m_push q - m_pop q))); [lia|].
    cbn [orb fst]. f_equal. rewrite (wrap64_mod N _ HN).
    rewrite Zplus_mod, HNmod, Z.add_0_r. apply Z.mod_mod. lia.
  - assert (H0 : 0 <= size q)
      by (unfold size, LfSpsc.size; apply wrap32_range).
    unfold full_with, ack_count, c_rel. rewrite Hlock.
    change (2 ^ 31) with 2147483648 in HNb.
    change (2 ^ 32) with 4294967296.
    rewrite Z.mod_small by lia. lia.
Qed.

End ring.

(** [release_spec] on the word of two reservations, both finished. *)
Lemma release_spec_witness :
  let value := 2 * c_rel + 2 * c_ack in
  let q := Mpsc (LfSpsc.Spsc 7 3 [1%nat; 2%nat; 3%nat; 4%nat]) value in
  is_u64 value /\ is_u32 (m_push q) /\
  (value <> 0 /\ rel_count value = ack_count value) /\
  m_push (release value q) = wrap32 (m_push q + ack_count value) /\
  m_lock (release value q) = 0.
Proof.
  assert (Hv : is_u64 (2 * c_rel + 2 * c_ack)) by (vm_compute; split; congruence).
  assert (Hp : is_u32 7) by (vm_compute; split; congruence).
  assert (Hf : 2 * c_rel + 2 * c_ack <> 0 /\
               rel_count (2 * c_rel + 2 * c_ack) = ack_count (2 * c_rel + 2 * c_ack))
    by (split; [discriminate|reflexivity]).
  pose proof (proj1 (release_spec (2 * c_rel + 2 * c_ack)
    (Mpsc (LfSpsc.Spsc 7 3 [1%nat; 2%nat; 3%nat; 4%nat]) (2 * c_rel + 2 * c_ack))
    Hv Hp) Hf) as (Hpush & _ & _ & Hlock & _).
  split; [exact Hv|]. split; [exact Hp|]. split; [exact Hf|].
  split; [exact Hpush|]. exact (Hlock eq_refl).
Defined.

(** C3 fails on the code.  In a ring of four slots, four producers have
    each been given a pointer (slots 0, 1, 2, 3) and none has called
    [end_push()] yet: nothing is published, the word counts four
    reservations, and the ring would be full.  A fifth request must return
    null; it returns a pointer to slot 0, the slot of the first producer,
    and leaves five reservations.  When the five producers have called
    [end_push()], [m_push] has advanced by five and [size()] is 5 in a ring
    of 4.  The test [old % N >= N] of [operator T*()] can never hold, and
    [N - old % N] wraps the count of reservations at [N]. *)
Theorem push_ptr_overbooks :
  let reserve := fun q : lf_mpsc nat => snd (push_ptr 4 q) in
  let q0 := init 0%nat 4 in
  let q4 := reserve (reserve (reserve (reserve q0))) in
  [fst (push_ptr 4 q0); fst (push_ptr 4 (reserve q0));
   fst (push_ptr 4 (reserve (reserve q0)));
   fst (push_ptr 4 (reserve (reserve (reserve q0))))] =
  [Some 0; Some 1; Some 2; Some 3] /\
  q4 = Mpsc (LfSpsc.Spsc 0 0 [0%nat; 0%nat; 0%nat; 0%nat]) 4 /\
  full_with 4 (m_lock q4) q4 /\
  push_ptr 4 q4 = (Some 0, Mpsc (LfSpsc.Spsc 0 0 [0%nat; 0%nat; 0%nat; 0%nat]) 5) /\
  size (Nat.iter 5 end_push (reserve q4)) = 5.
Proof.
  cbv zeta. split; [reflexivity|]. split; [reflexivity|].
  split; [vm_compute; discriminate|]. split; reflexivity.
Qed.

End LfMpscFacts.

(** ** [lf_queue]: push, then apply *)

Module LfQueueFacts.
Import LfQueue.

Section list.
Context {T : Type}.
Implicit Type h : gmap nat (lf_item T).
Implicit Type ls : list nat.
Implicit Type vs : list T.

Lemma chain_null h ls vs : chain h None ls vs -> ls = [] /\ vs = [].
Proof.
  destruct ls, vs; cbn; try done. intros (? & ? & _). done.
Qed.

Lemma chain_cons h l ls vs :
  chain h (Some l) ls vs ->
  exists nxt v ls' vs', ls = l :: ls' /\ vs = v :: vs' /\
    h !! l = Some (Item nxt v) /\ chain h nxt ls' vs'.
Proof.
  destruct ls as [|l' ls], vs as [|v vs]; cbn; try done.
  intros (nxt & [= <-] & Hl & Hc). by exists nxt, v, ls, vs.
Qed.

Lemma chain_length h p ls vs : chain h p ls vs -> length ls = length vs.
Proof.
  revert p vs. induction ls as [|l ls IH]; intros p [|v vs]; cbn; try done.
  intros (nxt & _ & _ & Hc). f_equal. by apply (IH nxt).
Qed.

(** A chain only depends on the items it goes through. *)
Lemma chain_frame h h' p ls vs :
  (forall l, l ∈ ls -> h' !! l = h !! l) ->
  chain h p ls vs -> chain h' p ls vs.
Proof.
  revert p vs. induction ls as [|l ls IH]; intros p [|v vs] Hsame; cbn;
    try done.
  intros (nxt & -> & Hl & Hc). exists nxt. split; [done|]. split.
  - rewrite Hsame; [done|]. by left.
  - apply IH; [|done]. intros l' Hl'. apply Hsame. by right.
Qed.

Lemma chain_dom h p ls vs l : chain h p ls vs -> l ∈ ls -> is_Some (h !! l).
Proof.
  revert p vs. induction ls as [|l' ls IH]; intros p [|v vs]; cbn; try done.
  - intros _ Hin. by apply elem_of_nil in Hin.
  - intros (nxt & _ & Hl & Hc) Hin. apply elem_of_cons in Hin as [->|Hin].
    + eauto.
    + by apply (IH nxt vs).
Qed.

(** [push] links a new item in front of the chain. *)
Lemma push_chain data s ls vs :
  chain (heap s) (m_head s) ls vs ->
  exists item,
    heap s !! item = None /\
    push data s = Some (State (<[item := Item (m_head s) data]> (heap s))
                              (Some item)) /\
    chain (<[item := Item (m_head s) data]> (heap s)) (Some item)
          (item :: ls) (data :: vs).
Proof.
  intros Hc. exists (fresh (dom (heap s))).
  assert (Hfresh : heap s !! fresh (dom (heap s)) = None).
  { apply not_elem_of_dom, is_fresh. }
  split; [done|]. split.
  - unfold push. cbn. by rewrite AtomicFacts.exchange_same.
  - cbn. exists (m_head s). rewrite lookup_insert_eq. do 2 (split; [done|]).
    apply (chain_frame (heap s)); [|done].
    intros l Hl. apply lookup_insert_ne. intros <-.
    destruct (chain_dom _ _ _ _ _ Hc Hl) as [? ?]. congruence.
Qed.

(** The pointer rotation, with the part already turned ([lsA]) and the
    part still to turn ([lsB]). *)
Lemma reverse_loop_chain fuel h head prev lsA vsA lsB vsB :
  chain h (Some head) lsA vsA ->
  chain h (Some prev) lsB vsB ->
  NoDup (lsA ++ lsB) ->
  length lsB <= fuel ->
  exists h' head',
    reverse_loop fuel h head prev = Some (h', head') /\
    chain h' (Some head') (rev lsB ++ lsA) (rev vsB ++ vsA) /\
    (forall l, l ∉ lsB -> h' !! l = h !! l).
Proof.
  revert h head prev lsA vsA lsB vsB.
  induction fuel as [|fuel IH]; intros h head prev lsA vsA lsB vsB HA HB Hnd Hfuel.
  { apply chain_cons in HB as (? & ? & ? & ? & -> & _). cbn in Hfuel. lia. }
  apply chain_cons in HB as (pprev & v & lsB' & vsB' & -> & -> & Hprev & HB).
  cbn [reverse_loop]. rewrite Hprev. cbn [m_link m_data].
  apply NoDup_app in Hnd as (HndA & Hdisj & HndB).
  apply NoDup_cons in HndB as (HprevB & HndB').
  assert (HprevA : prev ∉ lsA).
  { intros Hin. apply (Hdisj prev Hin). by left. }
  set (h1 := <[prev := Item (Some head) v]> h).
  assert (HA1 : chain h1 (Some prev) (prev :: lsA) (v :: vsA)).
  { cbn. exists (Some head). split; [done|]. split.
    - unfold h1. by rewrite lookup_insert_eq.
    - apply (chain_frame h); [|done]. intros l Hl. unfold h1.
      apply lookup_insert_ne. by intros <-. }
  destruct pprev as [pprev|].
  - assert (HB1 : chain h1 (Some pprev) lsB' vsB').
    { apply (chain_frame h); [|done]. intros l Hl. unfold h1.
      apply lookup_insert_ne. by intros <-. }
    destruct (IH h1 prev pprev (prev :: lsA) (v :: vsA) lsB' vsB' HA1 HB1)
      as (h' & head' & Hloop & Hc & Hout).
    { apply NoDup_app. split; [|split; [|done]].
      - apply NoDup_cons. by split.
      - intros l Hl HlB. apply elem_of_cons in Hl as [->|Hl]; [done|].
        apply (Hdisj l Hl). by right. }
    { cbn in Hfuel. lia. }
    exists h', head'. split; [done|]. split.
    + cbn [rev]. by rewrite <- !app_assoc.
    + intros l Hl. rewrite Hout.
      * unfold h1. apply lookup_insert_ne. intros <-. apply Hl. by left.
      * intros Hin. apply Hl. by right.
  - apply chain_null in HB as [-> ->].
    exists h1, prev. split; [done|]. split; [done|].
    intros l Hl. unfold h1. apply lookup_insert_ne. intros <-. apply Hl. by left.
Qed.

(** [reverse()] takes the whole chain and hands it back in the opposite
    order, leaving the queue empty. *)
Lemma reverse_chain fuel s ls vs :
  chain (heap s) (m_head s) ls vs ->
  NoDup ls ->
  length ls <= S fuel ->
  exists h' p,
    reverse fuel s = Some (p, State h' None) /\
    chain h' p (rev ls) (rev vs) /\
    (forall l, l ∉ ls -> h' !! l = heap s !! l).
Proof.
  destruct s as [h [head|]]; cbn [heap m_head]; intros Hc Hnd Hfuel.
  - apply chain_cons in Hc as (nxt & v & ls' & vs' & -> & -> & Hhead & Hc).
    unfold reverse. cbn [heap m_head]. rewrite Hhead. cbn [m_link m_data].
    apply NoDup_cons in Hnd as (Hhd & Hnd').
    destruct nxt as [prev|].
    + set (h1 := <[head := Item None v]> h).
      assert (HA : chain h1 (Some head) [head] [v]).
      { cbn. exists None. unfold h1. by rewrite lookup_insert_eq. }
      assert (HB : chain h1 (Some prev) ls' vs').
      { apply (chain_frame h); [|done]. intros l Hl. unfold h1.
        apply lookup_insert_ne. by intros <-. }
      destruct (reverse_loop_chain fuel h1 head prev [head] [v] ls' vs' HA HB)
        as (h' & head' & -> & Hc' & Hout).
      { cbn. apply NoDup_cons. by split. }
      { cbn in Hfuel. lia. }
      exists h', (Some head'). split; [done|]. split; [done|].
      intros l Hl. rewrite Hout.
      * unfold h1. apply lookup_insert_ne. intros <-. apply Hl. by left.
      * intros Hin. apply Hl. by right.
    + apply chain_null in Hc as [-> ->].
      exists h, (Some head). split; [done|]. split; [|done].
      cbn. by exists None.
  - apply chain_null in Hc as [-> ->].
    exists h, None. by repeat split.
Qed.

(** The loop of [apply] calls [func] on the values of the chain in link
    order, counts them and frees their items. *)
Lemma apply_loop_chain {A : Type} fuel (func : T -> A -> A) h ptr ls vs
      count acc :
  chain h ptr ls vs ->
  NoDup ls ->
  length ls <= fuel ->
  exists h',
    apply_loop fuel func h ptr count acc =
    Some (h', count + length ls, fold_left (fun a v => func v a) vs acc) /\
    (forall l, l ∈ ls -> h' !! l = None) /\
    (forall l, l ∉ ls -> h' !! l = h !! l).
Proof.
  revert h ptr ls vs count acc.
  induction fuel as [|fuel IH]; intros h ptr ls vs count acc Hc Hnd Hfuel.
  { destruct ls; [|cbn in Hfuel; lia].
    destruct vs; [|done]. cbn in Hc. subst ptr.
    exists h. cbn. rewrite Nat.add_0_r. split; [done|]. split; [|done].
    intros l Hl. by apply elem_of_nil in Hl. }
  destruct ptr as [p|].
  - apply chain_cons in Hc as (nxt & v & ls' & vs' & -> & -> & Hp & Hc).
    apply NoDup_cons in Hnd as (Hhd & Hnd').
    cbn [apply_loop]. rewrite Hp. cbn [m_link m_data].
    rewrite delete_insert_eq.
    destruct (IH (delete p h) nxt ls' vs' (S count) (func v acc))
      as (h' & -> & Hin & Hout); [|done|cbn in Hfuel; lia|].
    { apply (chain_frame h); [|done]. intros l Hl.
      apply lookup_delete_ne. by intros <-. }
    exists h'. split.
    { replace (count + length (p :: ls')) with (S count + length ls')
        by (cbn; lia). done. }
    split.
    + intros l Hl. apply elem_of_cons in Hl as [->|Hl]; [|by apply Hin].
      rewrite Hout by done. apply lookup_delete_eq.
    + intros l Hl. rewrite Hout.
      * apply lookup_delete_ne. intros <-. apply Hl. by left.
      * intros Hl'. apply Hl. by right.
  - apply chain_null in Hc as [-> ->].
    exists h. cbn. rewrite Nat.add_0_r. split; [done|]. split; [|done].
    intros l Hl. by apply elem_of_nil in Hl.
Qed.

(** Pushing [vs] puts them in front of the chain, last pushed first, in
    items that were not in use. *)
Lemma push_all_chain vs s ls0 vs0 :
  chain (heap s) (m_head s) ls0 vs0 ->
  NoDup ls0 ->
  exists s' ls,
    push_all vs s = Some s' /\
    chain (heap s') (m_head s') (ls ++ ls0) (rev vs ++ vs0) /\
    NoDup (ls ++ ls0) /\
    (forall l, l ∈ ls -> heap s !! l = None) /\
    (forall l, l ∉ ls -> heap s' !! l = heap s !! l).
Proof.
  revert s ls0 vs0. induction vs as [|v vs IH]; intros s ls0 vs0 Hc Hnd.
  { exists s, []. cbn. repeat split; try done.
    intros l Hl. by apply elem_of_nil in Hl. }
  destruct (push_chain v s ls0 vs0 Hc) as (item & Hitem & Hpush & Hc1).
  set (s1 := State (<[item := Item (m_head s) v]> (heap s)) (Some item)) in *.
  assert (Hnd1 : NoDup (item :: ls0)).
  { apply NoDup_cons. split; [|done]. intros Hin.
    destruct (chain_dom _ _ _ _ _ Hc Hin) as [? ?]. congruence. }
  destruct (IH s1 (item :: ls0) (v :: vs0) Hc1 Hnd1)
    as (s' & ls & Hall & Hc' & Hnd' & Hnew & Hout).
  exists s', (ls ++ [item]). cbn [push_all rev]. rewrite Hpush.
  rewrite <- !app_assoc. cbn [app].
  split; [done|]. split; [done|]. split; [done|]. split.
  - intros l Hl. apply elem_of_app in Hl as [Hl|Hl].
    + specialize (Hnew l Hl). unfold s1 in Hnew. cbn in Hnew.
      apply lookup_insert_None in Hnew. tauto.
    + apply list_elem_of_singleton in Hl. by subst l.
  - intros l Hl. rewrite Hout.
    + unfold s1. cbn. apply lookup_insert_ne. intros <-. apply Hl.
      apply elem_of_app. right. by apply list_elem_of_singleton.
    + intros Hin. apply Hl. apply elem_of_app. by left.
Qed.

(** C2.  In any store, after one thread has pushed [v1 .. vn] into an
    empty queue, [apply(func)] returns (given the rounds for its two
    loops), [func] has been called on [v1], ..., [vn] in that order, the
    count returned is [n], the queue is empty and every item has been
    freed. *)
Theorem push_then_apply {A : Type} h0 vs (func : T -> A -> A) acc fuel :
  length vs <= fuel ->
  exists s,
    push_all vs (init h0) = Some s /\
    apply fuel func acc s =
    Some (length vs, fold_left (fun a v => func v a) vs acc, init h0).
Proof.
  intros Hfuel.
  destruct (push_all_chain vs (init h0) [] [] eq_refl NoDup_nil_2)
    as (s & ls & Hall & Hc & Hnd & Hnew & Hout).
  rewrite !app_nil_r in *. cbn [init heap] in *.
  pose proof (chain_length _ _ _ _ Hc) as Hlen.
  rewrite length_rev in Hlen.
  destruct (reverse_chain fuel s ls (rev vs) Hc Hnd ltac:(lia))
    as (h1 & p & Hrev & Hc1 & Hout1).
  rewrite rev_involutive in Hc1.
  destruct (apply_loop_chain fuel func h1 p (rev ls) vs 0 acc Hc1)
    as (h2 & Hloop & Hin2 & Hout2).
  { by rewrite <- Permutation_rev. }
  { rewrite length_rev. lia. }
  assert (Hh : h2 = h0).
  { apply map_eq. intros l. destruct (decide (l ∈ ls)) as [Hl|Hl].
    - rewrite Hin2 by (by rewrite <- Permutation_rev). symmetry.
      by apply Hnew.
    - rewrite Hout2 by (by rewrite <- Permutation_rev).
      rewrite Hout1 by done. by apply Hout. }
  exists s. split; [done|]. unfold apply. rewrite Hrev. cbn [heap m_head].
  rewrite Hloop, length_rev, Hlen, Hh. reflexivity.
Qed.

End list.

(** [push_then_apply] on three values, with [func] appending what it is
    given to a list. *)
Lemma push_then_apply_witness :
  let func := fun (v : nat) (seen : list nat) => seen ++ [v] in
  length [5; 6; 7] <= 3 /\
  exists s,
    push_all [5; 6; 7] (init ∅) = Some s /\
    apply 3 func [] s = Some (3, [5; 6; 7], init ∅).
Proof.
  split; [apply Nat.le_refl|].
  exact (push_then_apply ∅ [5; 6; 7] (fun v seen => seen ++ [v]) [] 3
           (Nat.le_refl 3)).
Defined.

End LfQueueFacts.

(** ** [lf_value]: the latest and the first value *)

Module LfValueFacts.
Import LfValue.

Section cell.
Context {T : Type}.
Implicit Type h : gmap nat (lf_value T).

Lemma construct_cell this v0 h : cell_of this v0 (construct this v0 h).
Proof.
  exists this. unfold construct. rewrite lookup_insert_eq. eauto.
Qed.

Lemma get_construct this v0 h : get this (construct this v0 h) = Some v0.
Proof. unfold get, construct. now rewrite !lookup_insert_eq. Qed.

(** One assignment: the loop ends at its first exchange, the head is the
    new object, and the cell keeps its own value. *)
Lemma assign_cell this v0 v h :
  cell_of this v0 h ->
  exists h', assign this v h = Some (v, h') /\
    get this h' = Some v /\ first this h' = Some v0 /\ cell_of this v0 h'.
Proof.
  intros (p & Hthis & Hp). unfold assign, construct.
  set (val := fresh (dom h)).
  assert (Hval : h !! val = None).
  { apply not_elem_of_dom. apply is_fresh. }
  assert (Hne : val <> this) by congruence.
  rewrite lookup_insert_ne, Hthis by exact Hne.
  cbn [assign_retry m_head]. rewrite lookup_alter_ne by exact Hne.
  rewrite lookup_insert_ne, Hthis by exact Hne. cbn [m_head m_data].
  rewrite AtomicFacts.exchange_same.
  rewrite lookup_insert_ne by congruence.
  rewrite lookup_alter_eq, lookup_insert_eq. cbn.
  eexists. split; [reflexivity|].
  unfold get, first. rewrite !lookup_insert_eq. cbn.
  rewrite lookup_insert_ne by congruence.
  rewrite lookup_alter_eq, lookup_insert_eq. cbn.
  split; [reflexivity|]. split; [reflexivity|].
  exists val. rewrite lookup_insert_eq. split; [reflexivity|].
  rewrite lookup_insert_ne by congruence.
  rewrite lookup_alter_eq, lookup_insert_eq. cbn. eauto.
Qed.

Lemma assign_all_cell this v0 vs h :
  cell_of this v0 h ->
  exists h', assign_all this vs h = Some h' /\ cell_of this v0 h' /\
    first this h' = Some v0 /\
    get this h' = match last vs with Some v => Some v | None => get this h end.
Proof.
  revert h. induction vs as [|v vs IH]; intros h Hc.
  - exists h. pose proof Hc as (p & Hthis & Hp).
    unfold first. rewrite Hthis. now repeat split.
  - destruct (assign_cell this v0 v h Hc) as (h1 & Ha & Hg & Hf & Hc1).
    destruct (IH h1 Hc1) as (h' & Hall & Hc' & Hf' & Hg').
    exists h'. cbn [assign_all]. rewrite Ha. split; [exact Hall|].
    split; [exact Hc'|]. split; [exact Hf'|].
    rewrite Hg', Hg, last_cons. now destruct (last vs).
Qed.

(** C9.  A cell constructed with [v0] and then assigned any values, the
    last of them [v]: every assignment returns, [get()] yields [v] and
    [first()] yields [v0].  Without any assignment [get()] yields [v0]. *)
Theorem latest_and_first this v0 vs v h :
  get this (construct this v0 h) = Some v0 /\
  first this (construct this v0 h) = Some v0 /\
  exists h', assign_all this (vs ++ [v]) (construct this v0 h) = Some h' /\
    get this h' = Some v /\ first this h' = Some v0.
Proof.
  split; [apply get_construct|].
  split; [unfold first, construct; now rewrite lookup_insert_eq|].
  destruct (assign_all_cell this v0 (vs ++ [v]) _ (construct_cell this v0 h))
    as (h' & Hall & _ & Hf & Hg).
  exists h'. split; [exact Hall|]. split; [|exact Hf].
  now rewrite Hg, last_snoc.
Qed.

End cell.
End LfValueFacts.

(** * Further properties *)

(** ** [lf_array]: elements *)

Module LfArrayLaws.
Import LfArray LfArrayFacts.

Section elements.
Context {T : Type} (dflt : T) (N : nat).
Implicit Type a : lf_array T.

Local Abbreviation new_block := (new_lf_array dflt N).
Local Abbreviation grow := (grow dflt N).
Local Abbreviation wf := (wf N).
Local Abbreviation at_index := (at_index dflt N).

(** The reference an index resolves to. *)
Local Abbreviation ref_of i := (Ref (i / N) (i mod N)).

Lemma store_at_blocks a k s v : blocks (store_at a k s v) = blocks a.
Proof.
  revert k. induction a as [d|d nxt IH] using chain_ind; intros [|k]; cbn;
    try done. by rewrite IH.
Qed.

Lemma store_at_wf a k s v : wf a -> wf (store_at a k s v).
Proof.
  revert k. induction a as [d|d nxt IH] using chain_ind; intros [|k]; cbn;
    rewrite ?length_insert; try done.
  intros [? ?]. split; [done|]. by apply IH.
Qed.

Lemma install_store_at n a k s v :
  k < blocks a ->
  install n (store_at a k s v) = store_at (install n a) k s v.
Proof.
  revert k. induction a as [d|d nxt IH] using chain_ind; intros [|k] Hk;
    cbn in *; try done; try lia.
  rewrite IH by lia. done.
Qed.

Lemma grow_store_at g a k s v :
  k < blocks a -> grow g (store_at a k s v) = store_at (grow g a) k s v.
Proof.
  revert a. induction g as [|g IH]; intros a Hk; cbn; [done|].
  rewrite install_store_at by done. apply IH.
  rewrite install_blocks. lia.
Qed.

Lemma load_store_at_eq a k s v :
  is_Some (load a (Ref k s)) -> load (store_at a k s v) (Ref k s) = Some v.
Proof.
  unfold load. cbn [ref_block ref_slot].
  revert k. induction a as [d|d nxt IH] using chain_ind; intros [|k];
    cbn; try (intros [? ?]; done).
  - intros Hs. apply list_lookup_insert_eq. by apply lookup_lt_is_Some_1.
  - intros Hs. apply list_lookup_insert_eq. by apply lookup_lt_is_Some_1.
  - apply IH.
Qed.

Lemma load_store_at_ne a k s v r :
  r <> Ref k s -> load (store_at a k s v) r = load a r.
Proof.
  destruct r as [b t]. unfold load. cbn [ref_block ref_slot].
  revert k b. induction a as [d|d nxt IH] using chain_ind;
    intros [|k] [|b] Hne; cbn; try done.
  - apply list_lookup_insert_ne. congruence.
  - apply list_lookup_insert_ne. congruence.
  - apply IH. congruence.
Qed.

Lemma load_blocks a b s : is_Some (load a (Ref b s)) -> b < blocks a.
Proof.
  unfold load. cbn [ref_block ref_slot].
  revert b. induction a as [d|d nxt IH] using chain_ind; intros [|b];
    cbn; try lia; try (intros [? ?]; done).
  intros H. apply IH in H. lia.
Qed.

(** A block linked by [grow] is made of value-initialised elements. *)
Lemma install_load_fresh a s :
  load (install new_block a) (Ref (blocks a) s) = replicate N dflt !! s.
Proof.
  unfold load. cbn [ref_block ref_slot].
  induction a as [d|d nxt IH] using chain_ind; cbn; [done|apply IH].
Qed.

Lemma grow_load_fresh g a b s :
  blocks a <= b < blocks a + g -> s < N ->
  load (grow g a) (Ref b s) = Some dflt.
Proof.
  revert a. induction g as [|g IH]; intros a Hb Hs; [lia|]. cbn.
  destruct (decide (b = blocks a)) as [->|Hne].
  - apply grow_load. rewrite install_load_fresh.
    by apply lookup_replicate_2.
  - apply IH; [|done]. rewrite install_blocks. cbn. lia.
Qed.

Hypothesis N_pos : 0 < N.

Lemma ref_of_inj i j : ref_of i = ref_of j -> i = j.
Proof using N_pos.
  intros [= Hd Hm].
  rewrite (Nat.div_mod_eq i N), (Nat.div_mod_eq j N). congruence.
Qed.

(** Every element of a newly constructed array is [T{}], whatever its
    index: the elements of the first block and those of the blocks an
    access links. *)
Theorem fresh_element i :
  exists a' r,
    at_index new_block i = Some (a', r) /\ load a' r = Some dflt.
Proof using N_pos.
  eexists _, _. split; [apply (at_index_grow dflt N N_pos)|].
  assert (Hs : i mod N < N) by (apply Nat.mod_upper_bound; lia).
  cbn [blocks].
  destruct (decide (i / N = 0)) as [->|Hne].
  - cbn. by apply lookup_replicate_2.
  - apply grow_load_fresh; [cbn; lia|done].
Qed.

(** Assigning through the reference of index [i] and reading again: the
    access at [i] yields the same reference, which now reads [v]; an access
    at any other index [j] yields a different reference, the one it yielded
    before the assignment, with the value it had before, also when that
    access links new blocks; and [i] still reads [v] afterwards. *)
Theorem assign_then_read a i v :
  wf a ->
  exists a1 ri,
    at_index a i = Some (a1, ri) /\
    let a2 := store a1 ri v in
    at_index a2 i = Some (a2, ri) /\
    load a2 ri = Some v /\
    forall j, j <> i ->
      exists b b' rj,
        at_index a1 j = Some (b, rj) /\
        at_index a2 j = Some (b', rj) /\
        rj <> ri /\
        load b' rj = load b rj /\
        load b' ri = Some v.
Proof using N_pos.
  intros Hwf.
  set (a1 := grow (S (i / N) - blocks a) a).
  assert (Hwf1 : wf a1) by (by apply grow_wf).
  assert (Hb1 : i / N < blocks a1).
  { unfold a1. rewrite grow_blocks. lia. }
  assert (Hs : i mod N < N) by (apply Nat.mod_upper_bound; lia).
  pose proof (load_wf N a1 _ _ Hwf1 Hb1 Hs) as Hsome.
  exists a1, (ref_of i). split; [apply (at_index_grow dflt N N_pos)|].
  cbv zeta. unfold store. cbn [ref_block ref_slot].
  set (a2 := store_at a1 (i / N) (i mod N) v).
  assert (Hb2 : blocks a2 = blocks a1) by apply store_at_blocks.
  assert (Hl2 : load a2 (ref_of i) = Some v) by (by apply load_store_at_eq).
  split.
  { rewrite (at_index_grow dflt N N_pos).
    replace (S (i / N) - blocks a2) with 0 by lia. done. }
  split; [done|].
  intros j Hj.
  exists (grow (S (j / N) - blocks a1) a1),
         (grow (S (j / N) - blocks a2) a2), (ref_of j).
  split; [apply (at_index_grow dflt N N_pos)|].
  split; [apply (at_index_grow dflt N N_pos)|].
  assert (Hne : ref_of j <> ref_of i).
  { intros Heq. by apply ref_of_inj in Heq. }
  split; [done|].
  rewrite Hb2. unfold a2. rewrite grow_store_at by done.
  split.
  - by apply load_store_at_ne.
  - apply load_store_at_eq.
    destruct Hsome as [x Hx]. exists x. by apply grow_load.
Qed.

End elements.

(** [assign_then_read] on an array of two-element blocks: index 5 is
    assigned, index 9 is read. *)
Lemma assign_then_read_witness :
  0 < 2 /\ wf 2 (new_lf_array 0 2) /\
  exists a1 ri,
    at_index 0 2 (new_lf_array 0 2) 5 = Some (a1, ri) /\
    at_index 0 2 (store a1 ri 7) 5 = Some (store a1 ri 7, ri) /\
    load (store a1 ri 7) ri = Some 7 /\
    forall j, j <> 5 ->
      exists b b' rj,
        at_index 0 2 a1 j = Some (b, rj) /\
        at_index 0 2 (store a1 ri 7) j = Some (b', rj) /\
        rj <> ri /\
        load b' rj = load b rj /\
        load b' ri = Some 7.
Proof.
  split; [lia|]. split; [reflexivity|].
  exact (assign_then_read 0 2 (Nat.lt_0_succ 1) (new_lf_array 0 2) 5 7 eq_refl).
Defined.

(** [fresh_element] at index 11 of an array of four-element blocks. *)
Lemma fresh_element_witness :
  0 < 4 /\
  exists a' r,
    at_index 0 4 (new_lf_array 0 4) 11 = Some (a', r) /\ load a' r = Some 0.
Proof.
  split; [lia|]. exact (fresh_element 0 4 (Nat.lt_0_succ 3) 11).
Defined.

End LfArrayLaws.

(** ** [lf_fifo]: reservations and the number outstanding *)

Module LfFifoLaws.
Import Word WordFacts LfFifo.
Local Open Scope Z_scope.

Section counters.
Context {T : Type}.
Implicit Type q : lf_fifo T.

Lemma push_begin_small n q :
  0 <= size q -> 0 <= n -> size q + n < two32 ->
  push_begin n q = (size q, Fifo (base q) (Ctrl (size q + n) (peek q))).
Proof.
  intros H0 Hn Hlt. unfold push_begin, atomic_op, size, peek in *. cbn.
  rewrite wrap32_small by lia. reflexivity.
Qed.

Lemma starts_ge from counts j rj :
  (forall c, c ∈ counts -> 0 <= c) ->
  starts from counts !! j = Some rj -> from <= rj.
Proof.
  revert from j. induction counts as [|c counts IH]; intros from j Hpos;
    [done|].
  destruct j as [|j]; cbn.
  - intros [= <-]. lia.
  - intros Hj. apply IH in Hj.
    + assert (0 <= c) by (apply Hpos; by left). lia.
    + intros c' Hc'. apply Hpos. by right.
Qed.

Lemma starts_apart from counts i j ri ci rj :
  (forall c, c ∈ counts -> 0 <= c) ->
  (i < j)%nat ->
  starts from counts !! i = Some ri -> counts !! i = Some ci ->
  starts from counts !! j = Some rj ->
  ri + ci <= rj.
Proof.
  revert from i j. induction counts as [|c counts IH]; intros from i j Hpos Hij;
    [done|].
  assert (Hpos' : forall c, c ∈ counts -> 0 <= c).
  { intros c' Hc'. apply Hpos. by right. }
  destruct j as [|j]; [lia|]. destruct i as [|i]; cbn.
  - intros [= <-] [= <-] Hj. by apply starts_ge in Hj.
  - intros Hi Hci Hj. apply (IH (from + c) i j); [done|lia|done..].
Qed.

Lemma run_reservations counts q :
  (forall c, c ∈ counts -> 0 <= c) ->
  0 <= size q -> size q + total counts < two32 ->
  run (PushBegin <$> counts) q =
  (starts (size q) counts,
   Fifo (base q) (Ctrl (size q + total counts) (peek q))).
Proof.
  revert q. induction counts as [|c counts IH]; intros q Hpos H0 Hlt.
  - cbn. rewrite Z.add_0_r. by destruct q as [? []].
  - assert (Hc : 0 <= c) by (apply Hpos; by left).
    assert (Hpos' : forall c, c ∈ counts -> 0 <= c).
    { intros c' Hc'. apply Hpos. by right. }
    assert (Ht : 0 <= total counts).
    { clear -Hpos'. induction counts as [|c' counts IH]; cbn; [done|].
      assert (0 <= c') by (apply Hpos'; by left).
      assert (0 <= total counts); [|unfold total in *; lia].
      apply IH. intros x Hx. apply Hpos'. by right. }
    cbn [fmap list_fmap run step total foldr] in *. fold (total counts) in *.
    rewrite push_begin_small by lia.
    rewrite IH; cbn [size peek base m_ctrl push pop]; [|done|lia|lia].
    do 3 f_equal. ring.
Qed.

(** A series of reservations on a queue that has seen no acknowledgement:
    as long as the total stays within 32 bits, each [push_begin] returns
    the index after the last one reserved before it, so the ranges reserved
    by any two calls do not overlap; [size()] ends at the total, and the
    array and the pop counter are not touched. *)
Theorem reservations_disjoint (a : LfArray.lf_array T) counts :
  (forall c, c ∈ counts -> 0 <= c) ->
  total counts < two32 ->
  let firsts := fst (run (PushBegin <$> counts) (init a)) in
  let q := snd (run (PushBegin <$> counts) (init a)) in
  length firsts = length counts /\
  (forall i j ri ci rj, (i < j)%nat ->
     firsts !! i = Some ri -> counts !! i = Some ci -> firsts !! j = Some rj ->
     0 <= ri /\ ri + ci <= rj /\ rj <= total counts) /\
  size q = total counts /\ peek q = 0 /\ base q = a.
Proof.
  intros Hpos Hlt. cbv zeta.
  rewrite (run_reservations counts (init a)); cbn [size init m_ctrl push];
    [|done|done|lia].
  cbn [fst snd size peek base m_ctrl push pop].
  split.
  { clear. generalize 0. induction counts as [|c counts IH]; intros from;
      cbn; [done|]. by rewrite IH. }
  split; [|by rewrite Z.add_0_l].
  intros i j ri ci rj Hij Hi Hci Hj.
  split; [by apply starts_ge in Hi|].
  split; [by apply (starts_apart 0 counts i j)|].
  clear Hi Hci Hij ri ci i Hlt.
  assert (Hgen : forall from, starts from counts !! j = Some rj ->
                              rj <= from + total counts).
  { clear Hj. revert j. induction counts as [|c counts IH]; intros j from;
      [done|].
    assert (Hc : 0 <= c) by (apply Hpos; by left).
    assert (Hpos' : forall c, c ∈ counts -> 0 <= c).
    { intros c' Hc'. apply Hpos. by right. }
    assert (Ht : 0 <= total counts).
    { clear -Hpos'. induction counts as [|c' counts IH']; cbn; [done|].
      assert (0 <= c') by (apply Hpos'; by left).
      assert (0 <= total counts); [|unfold total in *; lia].
      apply IH'. intros x Hx. apply Hpos'. by right. }
    destruct j as [|j]; cbn [starts lookup list_lookup total foldr];
      fold (total counts).
    - intros [= <-]. lia.
    - intros Hj. apply (IH Hpos') in Hj. lia. }
  apply Hgen in Hj. lia.
Qed.

Lemma step_conserved c q :
  in_order q -> allowed c q ->
  in_order (snd (step c q)) /\
  outstanding (snd (step c q)) = outstanding q + effect c.
Proof.
  intros [Hord Hlt] Hc. destruct c as [n|n]; cbn [step allowed effect] in *.
  - destruct Hc as [Hn Hsum]. rewrite push_begin_small by lia.
    unfold in_order, outstanding, size, peek in *. cbn. lia.
  - unfold outstanding in Hc. rewrite LfFifoFacts.pop_end_unfold. cbv zeta.
    unfold in_order, outstanding, size, peek in *.
    rewrite wrap32_small by lia.
    destruct (Z.eqb_spec (pop (m_ctrl q) + n) (push (m_ctrl q))); cbn;
      rewrite ?two32_eq in *; lia.
Qed.

(** In a run that keeps to the counting protocol the number of elements
    outstanding, [size() - peek()], is the number reserved minus the number
    acknowledged, across every reset of the counters, and the pop counter
    never passes the push counter. *)
Theorem run_conserved cs q :
  in_order q -> allowed_run cs q ->
  in_order (snd (run cs q)) /\
  outstanding (snd (run cs q)) = outstanding q + total (effect <$> cs).
Proof.
  revert q. induction cs as [|c cs IH]; intros q Hq Hcs.
  - cbn. split; [done|]. lia.
  - destruct Hcs as [Hc Hcs].
    destruct (step_conserved c q Hq Hc) as [Hq' Hout].
    destruct (IH _ Hq' Hcs) as [Hq'' Hout'].
    cbn [run fmap list_fmap total foldr]. fold (total (effect <$> cs)).
    destruct (step c q) as [r q1]. cbn [snd] in *.
    destruct (run cs q1) as [rs q2]. cbn [snd] in *.
    split; [done|]. lia.
Qed.

End counters.

(** [reservations_disjoint] on three reservations, one of them empty. *)
Lemma reservations_disjoint_witness :
  let counts := [3; 0; 4] in
  let firsts := fst (run (PushBegin <$> counts) (init unit_array)) in
  let q := snd (run (PushBegin <$> counts) (init unit_array)) in
  (forall c, c ∈ counts -> 0 <= c) /\ total counts < two32 /\
  length firsts = length counts /\
  (forall i j ri ci rj, (i < j)%nat ->
     firsts !! i = Some ri -> counts !! i = Some ci -> firsts !! j = Some rj ->
     0 <= ri /\ ri + ci <= rj /\ rj <= total counts) /\
  size q = total counts /\ peek q = 0 /\ base q = unit_array.
Proof.
  assert (Hpos : forall c, c ∈ [3; 0; 4] -> 0 <= c).
  { intros c Hc. repeat (apply elem_of_cons in Hc as [->|Hc]; [lia|]).
    by apply elem_of_nil in Hc. }
  assert (Hlt : total [3; 0; 4] < two32) by reflexivity.
  split; [exact Hpos|]. split; [exact Hlt|].
  exact (reservations_disjoint unit_array [3; 0; 4] Hpos Hlt).
Defined.

(** [run_conserved] on a run with a reset in its middle. *)
Lemma run_conserved_witness :
  let cs := [PushBegin 2; PopEnd 2; PushBegin 5; PopEnd 1] in
  let q := init unit_array in
  in_order q /\ allowed_run cs q /\
  in_order (snd (run cs q)) /\
  outstanding (snd (run cs q)) = outstanding q + total (effect <$> cs).
Proof.
  assert (Hq : in_order (init unit_array)).
  { unfold in_order. cbn. rewrite two32_eq. lia. }
  assert (Hcs : allowed_run [PushBegin 2; PopEnd 2; PushBegin 5; PopEnd 1]
                            (init unit_array)).
  { vm_compute. repeat split; congruence. }
  split; [exact Hq|]. split; [exact Hcs|].
  exact (run_conserved _ (init unit_array) Hq Hcs).
Defined.

End LfFifoLaws.

(** ** [lf_spsc]: the pointer interface and the capacity *)

Module LfSpscLaws.
Import Word WordFacts LfSpsc LfSpscFacts.
Local Open Scope Z_scope.

Section ring.
Context {T : Type} (dflt : T) (N : Z).
Hypothesis HN : static_assert N.
Implicit Type q : lf_spsc T.

(** In every ring reachable from the empty one the cursors are 32-bit
    values, there are [N] slots, and [size()] lies between 0 and [N]: the
    ring never holds more than its capacity, however often the cursors
    have wrapped. *)
Theorem capacity_kept q :
  reachable dflt N q ->
  0 <= size q <= N /\
  length (m_data q) = Z.to_nat N /\
  is_u32 (m_push q) /\ is_u32 (m_pop q).
Proof using HN.
  intros Hr. destruct (reachable_holds dflt N HN q Hr) as [l Hl].
  destruct Hl as (Hpu & Hpo & Hlen & Hsz & Hle & _).
  rewrite Hsz. repeat split; try tauto; try lia; apply Hpu || apply Hpo.
Qed.

(** The producer's pointer interface.  [operator T*()] returns null
    exactly when the ring is full, and then [end_push()] and [try_push] do
    nothing.  Otherwise the pointer is to one of the [N] slots; after an
    assignment through it [get_push(0)] reads the value back, and
    [end_push()] leaves the ring that [try_push] of that value leaves, with
    one element more. *)
Theorem pointer_then_end_push q data :
  reachable dflt N q ->
  (push_ptr N q = None <-> size q = N) /\
  (push_ptr N q = None ->
   end_push N q = q /\ try_push N data q = (false, q)) /\
  (forall ptr, push_ptr N q = Some ptr ->
     0 <= ptr < N /\
     get_push N 0 (write_slot ptr data q) = Some data /\
     try_push N data q = (true, end_push N (write_slot ptr data q)) /\
     size (end_push N (write_slot ptr data q)) = size q + 1).
Proof using HN.
  intros Hr. destruct (reachable_holds dflt N HN q Hr) as [l Hl].
  pose proof Hl as (Hpu & Hpo & Hlen & Hsz & Hle & _).
  pose proof (N_bound N HN) as HNb.
  unfold push_ptr, LfSpsc.end_push, LfSpsc.try_push, write_slot, get_push.
  cbn [m_push m_pop m_data]. unfold size in *. rewrite Hsz.
  destruct (Z.leb_spec N (Z.of_nat (length l))) as [Hfull|Hroom].
  - destruct (Z.ltb_spec (Z.of_nat (length l)) N); [lia|].
    split; [split; [lia|done]|]. split; [done|]. intros ptr [=].
  - destruct (Z.ltb_spec (Z.of_nat (length l)) N); [|lia].
    split; [split; [done|lia]|]. split; [done|].
    intros ptr [= <-].
    split; [apply slot_index_lt, HN|].
    split.
    { rewrite Z.add_0_r, wrap64_small.
      - unfold slot. cbn [m_data]. apply list_lookup_insert_eq.
        rewrite Hlen. pose proof (slot_index_lt N HN (m_push q)). lia.
      - destruct Hpu. rewrite two64_eq. rewrite two32_eq in *. lia. }
    split; [done|].
    cbn [m_push m_pop].
    rewrite wrap32_sub_l.
    replace (m_push q + 1 - m_pop q) with (m_push q - m_pop q + 1) by ring.
    rewrite <- wrap32_add_l, Hsz, wrap32_small; [lia|].
    rewrite two32_eq. change (2 ^ 31) with 2147483648 in HNb. lia.
Qed.


End ring.

Lemma static_assert_4 : static_assert 4.
Proof. split; [split|]; reflexivity. Qed.

(** A ring of four slots after three pushes and one pop. *)
Lemma used_ring_reachable :
  reachable 0%nat 4
    (step 0%nat 4 TryPop
       (step 0%nat 4 (TryPush 3%nat)
          (step 0%nat 4 (TryPush 2%nat)
             (step 0%nat 4 (TryPush 1%nat) (init 0%nat 4))))).
Proof. do 4 apply reachable_step. apply reachable_init. Qed.

Lemma capacity_kept_witness :
  let q := step 0%nat 4 TryPop
             (step 0%nat 4 (TryPush 3%nat)
                (step 0%nat 4 (TryPush 2%nat)
                   (step 0%nat 4 (TryPush 1%nat) (init 0%nat 4)))) in
  static_assert 4 /\ reachable 0%nat 4 q /\
  0 <= size q <= 4 /\
  length (m_data q) = Z.to_nat 4 /\
  is_u32 (m_push q) /\ is_u32 (m_pop q).
Proof.
  split; [exact static_assert_4|]. split; [exact used_ring_reachable|].
  exact (capacity_kept 0%nat 4 static_assert_4 _ used_ring_reachable).
Defined.

Lemma pointer_then_end_push_witness :
  let q := step 0%nat 4 TryPop
             (step 0%nat 4 (TryPush 3%nat)
                (step 0%nat 4 (TryPush 2%nat)
                   (step 0%nat 4 (TryPush 1%nat) (init 0%nat 4)))) in
  static_assert 4 /\ reachable 0%nat 4 q /\ push_ptr 4 q = Some 3 /\
  0 <= 3 < 4 /\
  get_push 4 0 (write_slot 3 9%nat q) = Some 9%nat /\
  try_push 4 9%nat q = (true, end_push 4 (write_slot 3 9%nat q)) /\
  size (end_push 4 (write_slot 3 9%nat q)) = size q + 1.
Proof.
  split; [exact static_assert_4|]. split; [exact used_ring_reachable|].
  split; [reflexivity|].
  exact (proj2 (proj2 (pointer_then_end_push 0%nat 4 static_assert_4 _ 9%nat
                         used_ring_reachable)) 3 eq_refl).
Defined.



End LfSpscLaws.

(** ** [lf_mpsc]: one producer at a time, and batches *)

Module LfMpscLaws.
Import Word WordFacts LfMpsc LfMpscFacts.
Local Open Scope Z_scope.

Section ring.
Context {T : Type} (N : Z).
Hypothesis HN : LfSpsc.static_assert N.
Implicit Type q : lf_mpsc T.

Local Abbreviation push_ptr := (push_ptr N).
Local Abbreviation reserve := (fun q : lf_mpsc T => snd (push_ptr q)).

Lemma c_rel_eq : c_rel = 4294967296.
Proof. reflexivity. Qed.

Lemma N_le : 0 < N <= 2147483648.
Proof using HN. exact (static_assert_bound N HN). Qed.

(** With no reservation outstanding, [lf_mpsc::try_push] is
    [lf_spsc::try_push] on the inherited ring: same result, same cursors
    and slots, and the reservation word is zero again. *)
Theorem try_push_alone data q :
  m_lock q = 0 ->
  try_push N data q =
  (fst (LfSpsc.try_push N data (spsc q)),
   Mpsc (snd (LfSpsc.try_push N data (spsc q))) 0).
Proof using HN.
  intros Hlock. pose proof N_le as HNb.
  unfold LfMpsc.try_push, LfMpsc.push_ptr, refuses, LfSpsc.try_push, c_ack.
  rewrite Hlock.
  change (m_push (set_lock (wrap64 (0 + 1)) q)) with (LfSpsc.m_push (spsc q)).
  change (m_pop (set_lock (wrap64 (0 + 1)) q)) with (LfSpsc.m_pop (spsc q)).
  rewrite Z.mod_0_l, Z.sub_0_r, (wrap64_small N) by (rewrite ?two64_eq; lia).
  destruct (Z.leb_spec N 0); [lia|]. cbn [orb].
  destruct (Z.leb_spec N (wrap32 (LfSpsc.m_push (spsc q) - LfSpsc.m_pop (spsc q)))).
  - cbn. reflexivity.
  - rewrite Z.add_0_r.
    rewrite (wrap64_mod N (LfSpsc.m_push (spsc q)) HN). reflexivity.
Qed.

(** As long as the word counts fewer than [N] reservations,
    [operator T*()] returns null exactly when the elements published and
    the reservations counted fill the ring; it then puts the word back and
    flushes a complete batch; otherwise the pointer is to slot
    [(m_push + ack) % N] and the word counts one reservation more. *)
Theorem push_ptr_with_room q :
  0 <= m_lock q -> m_lock q + 1 < two64 -> ack_count (m_lock q) < N ->
  (fst (push_ptr q) = None <-> full_with N (m_lock q) q) /\
  (fst (push_ptr q) = None -> snd (push_ptr q) = release (m_lock q) q) /\
  (forall ptr, fst (push_ptr q) = Some ptr ->
     ptr = (m_push q + ack_count (m_lock q)) mod N /\
     snd (push_ptr q) = set_lock (m_lock q + 1) q).
Proof using HN. apply push_ptr_below, HN. Qed.

Lemma ack_count_small (k : nat) :
  Z.of_nat k <= N -> ack_count (Z.of_nat k) = Z.of_nat k.
Proof using HN.
  intros Hk. pose proof N_le. unfold ack_count. rewrite c_rel_eq.
  apply Z.mod_small. lia.
Qed.

(** A reservation taken while the ring has room for it. *)
Lemma push_ptr_counted q (k : nat) :
  m_lock q = Z.of_nat k -> size q + Z.of_nat k < N ->
  push_ptr q =
  (Some ((m_push q + Z.of_nat k) mod N), set_lock (Z.of_nat (S k)) q).
Proof using HN.
  intros Hlock Hroom. pose proof N_le as HNb.
  assert (H0 : 0 <= size q)
    by (unfold size, LfSpsc.size; apply wrap32_range).
  pose proof (ack_count_small k ltac:(lia)) as Hack.
  destruct (push_ptr_below N HN q) as (Hnull & _ & Hptr).
  { lia. }
  { rewrite two64_eq. lia. }
  { rewrite Hlock, Hack. lia. }
  unfold full_with in Hnull. rewrite Hlock, Hack in *.
  destruct (LfMpsc.push_ptr N q) as [[ptr|] q'] eqn:E; cbn [fst snd] in *.
  - destruct (Hptr ptr eq_refl) as [-> ->]. do 2 f_equal. lia.
  - assert (N <= size q + Z.of_nat k) by (by apply Hnull). lia.
Qed.

Lemma reserve_iter (k : nat) q :
  m_lock q = 0 -> size q + Z.of_nat k <= N ->
  Nat.iter k reserve q = set_lock (Z.of_nat k) q.
Proof using HN.
  intros Hlock. induction k as [|k IH]; intros Hk.
  - destruct q as [s l]. cbn in Hlock. subst l. reflexivity.
  - rewrite Nat.iter_succ, IH by lia. cbv beta.
    rewrite (push_ptr_counted (set_lock (Z.of_nat k) q) k); [done|done|].
    change (size (set_lock (Z.of_nat k) q)) with (size q). lia.
Qed.

(** An [end_push()] that is not the last of its batch only counts. *)
Lemma end_push_counts q (k j : nat) :
  m_lock q = Z.of_nat k + Z.of_nat j * c_rel ->
  (j < k)%nat -> Z.of_nat k <= N ->
  end_push q =
  if decide (S j = k)
  then Mpsc (LfSpsc.Spsc (wrap32 (m_push q + Z.of_nat k)) (m_pop q) (m_data q)) 0
  else set_lock (Z.of_nat k + Z.of_nat (S j) * c_rel) q.
Proof using HN.
  intros Hlock Hj Hk. pose proof N_le as HNb.
  unfold LfMpsc.end_push. rewrite Hlock.
  assert (Hv : wrap64 (Z.of_nat k + Z.of_nat j * c_rel + c_rel)
               = Z.of_nat k + Z.of_nat (S j) * c_rel).
  { rewrite wrap64_small; [lia|]. rewrite two64_eq, c_rel_eq. lia. }
  rewrite Hv, release_unfold.
  assert (Hack : ack_count (Z.of_nat k + Z.of_nat (S j) * c_rel) = Z.of_nat k).
  { unfold ack_count. rewrite Z_mod_plus_full. rewrite c_rel_eq.
    apply Z.mod_small. lia. }
  assert (Hrel : rel_count (Z.of_nat k + Z.of_nat (S j) * c_rel)
                 = Z.of_nat (S j)).
  { unfold rel_count. rewrite Z_div_plus_full by (rewrite c_rel_eq; lia).
    rewrite Z.div_small by (rewrite c_rel_eq; lia). lia. }
  rewrite Hack, Hrel.
  destruct (Z.eqb_spec (Z.of_nat k + Z.of_nat (S j) * c_rel) 0) as [H0|_].
  { rewrite c_rel_eq in H0. lia. }
  cbn [negb andb m_lock set_lock].
  change (m_push (set_lock (Z.of_nat k + Z.of_nat (S j) * c_rel) q)) with (m_push q).
  change (m_pop (set_lock (Z.of_nat k + Z.of_nat (S j) * c_rel) q)) with (m_pop q).
  change (m_data (set_lock (Z.of_nat k + Z.of_nat (S j) * c_rel) q)) with (m_data q).
  rewrite Z.eqb_refl.
  destruct (Z.eqb_spec (Z.of_nat k) (Z.of_nat (S j))) as [He|Hne];
    destruct (decide (S j = k)); try lia; reflexivity.
Qed.

Lemma end_push_iter q (k j : nat) :
  m_lock q = Z.of_nat k -> (j < k)%nat -> Z.of_nat k <= N ->
  Nat.iter j end_push q = set_lock (Z.of_nat k + Z.of_nat j * c_rel) q.
Proof using HN.
  intros Hlock Hj Hk. induction j as [|j IH].
  - destruct q as [s l]. cbn in Hlock. subst l. unfold set_lock.
    cbn. f_equal. lia.
  - rewrite Nat.iter_succ, IH by lia. cbv beta.
    rewrite (end_push_counts _ k j); [|done|lia|done].
    rewrite decide_False by lia. reflexivity.
Qed.

(** A batch.  From a ring with no reservation outstanding and room for
    [k] elements, [k] requests in a row are given the [k] slots after the
    push cursor, all different.  The [end_push()] calls that follow leave
    the cursors and the slots alone and only count, until the [k]-th, which
    advances [m_push] by [k] in one step and resets the word to zero. *)
Theorem batch_commit q (k : nat) :
  m_lock q = 0 -> (0 < k)%nat -> size q + Z.of_nat k <= N ->
  let qk := Nat.iter k reserve q in
  (forall i : nat, (i < k)%nat ->
     fst (push_ptr (Nat.iter i reserve q))
     = Some ((m_push q + Z.of_nat i) mod N)) /\
  (forall i j : nat, (i < j < k)%nat ->
     (m_push q + Z.of_nat i) mod N <> (m_push q + Z.of_nat j) mod N) /\
  qk = set_lock (Z.of_nat k) q /\
  (forall j : nat, (j < k)%nat ->
     Nat.iter j end_push qk = set_lock (Z.of_nat k + Z.of_nat j * c_rel) q) /\
  Nat.iter k end_push qk =
  Mpsc (LfSpsc.Spsc (wrap32 (m_push q + Z.of_nat k)) (m_pop q) (m_data q)) 0.
Proof using HN.
  intros Hlock Hk Hroom. cbv zeta. pose proof N_le as HNb.
  assert (H0 : 0 <= size q)
    by (unfold size, LfSpsc.size; apply wrap32_range).
  assert (Hqk : Nat.iter k reserve q = set_lock (Z.of_nat k) q)
    by (by apply reserve_iter).
  split.
  { intros i Hi. rewrite reserve_iter by (done || lia).
    rewrite (push_ptr_counted _ i); [done|done|].
    change (size (set_lock (Z.of_nat i) q)) with (size q). lia. }
  split.
  { intros i j Hij. apply mod_apart; lia. }
  split; [done|].
  rewrite Hqk.
  assert (Hiter : forall j : nat, (j < k)%nat ->
            Nat.iter j end_push (set_lock (Z.of_nat k) q)
            = set_lock (Z.of_nat k + Z.of_nat j * c_rel) q).
  { intros j Hj. by rewrite (end_push_iter _ k j) by (done || lia). }
  split; [exact Hiter|].
  destruct k as [|k]; [lia|]. rewrite Nat.iter_succ, Hiter by lia.
  rewrite (end_push_counts _ (S k) k); [|done|lia|lia].
  rewrite decide_True by done. reflexivity.
Qed.

End ring.

Lemma try_push_alone_witness :
  let q := init 0%nat 4 in
  LfSpsc.static_assert 4 /\ m_lock q = 0 /\
  try_push 4 7%nat q =
  (fst (LfSpsc.try_push 4 7%nat (spsc q)),
   Mpsc (snd (LfSpsc.try_push 4 7%nat (spsc q))) 0).
Proof.
  split; [exact LfSpscLaws.static_assert_4|]. split; [reflexivity|].
  exact (try_push_alone 4 LfSpscLaws.static_assert_4 7%nat (init 0%nat 4)
           eq_refl).
Defined.

(** [batch_commit] on three producers and an empty ring of four slots. *)
Lemma batch_commit_witness :
  let q := init 0%nat 4 in
  let reserve := fun q : lf_mpsc nat => snd (push_ptr 4 q) in
  let qk := Nat.iter 3 reserve q in
  LfSpsc.static_assert 4 /\ m_lock q = 0 /\ (0 < 3)%nat /\
  size q + Z.of_nat 3 <= 4 /\
  (forall i : nat, (i < 3)%nat ->
     fst (push_ptr 4 (Nat.iter i reserve q))
     = Some ((m_push q + Z.of_nat i) mod 4)) /\
  (forall i j : nat, (i < j < 3)%nat ->
     (m_push q + Z.of_nat i) mod 4 <> (m_push q + Z.of_nat j) mod 4) /\
  qk = set_lock (Z.of_nat 3) q /\
  (forall j : nat, (j < 3)%nat ->
     Nat.iter j end_push qk = set_lock (Z.of_nat 3 + Z.of_nat j * c_rel) q) /\
  Nat.iter 3 end_push qk =
  Mpsc (LfSpsc.Spsc (wrap32 (m_push q + Z.of_nat 3)) (m_pop q) (m_data q)) 0.
Proof.
  split; [exact LfSpscLaws.static_assert_4|]. split; [reflexivity|].
  split; [lia|]. split; [vm_compute; discriminate|].
  refine (batch_commit 4 LfSpscLaws.static_assert_4 (init 0%nat 4) 3
            eq_refl _ _); [lia|vm_compute; discriminate].
Defined.

(** [push_ptr_with_room] on a ring of four slots that holds two elements
    and counts one reservation. *)
Lemma push_ptr_with_room_witness :
  let q := Mpsc (LfSpsc.Spsc 5 3 [1%nat; 2%nat; 3%nat; 4%nat]) 1 in
  LfSpsc.static_assert 4 /\ 0 <= m_lock q /\ m_lock q + 1 < two64 /\
  ack_count (m_lock q) < 4 /\
  (fst (push_ptr 4 q) = None <-> full_with 4 (m_lock q) q) /\
  (fst (push_ptr 4 q) = None -> snd (push_ptr 4 q) = release (m_lock q) q) /\
  (forall ptr, fst (push_ptr 4 q) = Some ptr ->
     ptr = (m_push q + ack_count (m_lock q)) mod 4 /\
     snd (push_ptr 4 q) = set_lock (m_lock q + 1) q).
Proof.
  split; [exact LfSpscLaws.static_assert_4|].
  split; [vm_compute; discriminate|]. split; [reflexivity|].
  split; [reflexivity|].
  refine (push_ptr_with_room 4 LfSpscLaws.static_assert_4
            (Mpsc (LfSpsc.Spsc 5 3 [1%nat; 2%nat; 3%nat; 4%nat]) 1) _ _ _);
    [vm_compute; discriminate|reflexivity|reflexivity].
Defined.

End LfMpscLaws.

(** ** [lf_hashmap]: looking a key up again *)

Module LfHashmapLaws.
Import LfArray LfArrayFacts LfArrayLaws LfHashmap LfHashmapFacts.

Section table.
Context {K T : Type} `{EqDecision K}.
Context (key0 : K) (dflt : T) (Hash : K -> nat) (Size : nat).
Hypothesis Size_pos : 0 < Size.
Implicit Type a : lf_array (pair_t K T).
Implicit Type m : lf_hashmap K T.

Local Abbreviation free := (Pair key0 dflt).
Local Abbreviation grow := (LfArray.grow free Size).
Local Abbreviation wf := (LfArray.wf Size).
Local Abbreviation probe := (probe key0 dflt Size).
Local Abbreviation at_key := (at_key key0 dflt Hash Size).
Local Abbreviation occupied_by_other := (occupied_by_other key0).

(** The loop stops at the first slot of the column that holds the key. *)
Lemma probe_hit fuel k a p s j pr :
  p < Size -> j < blocks a -> s <= j ->
  (forall i, s <= i < j -> occupied_by_other k a i p) ->
  load a (Ref j p) = Some pr -> key pr = k ->
  j - s < fuel ->
  probe fuel k a (p + s * Size) = Some (a, Ref j p).
Proof using Size_pos.
  intros Hp Hj. revert s.
  induction fuel as [|fuel IH]; intros s Hs Hocc Hload Hkey Hfuel; [lia|].
  cbn [LfHashmap.probe]. rewrite (at_index_probe key0 dflt Size Size_pos a p s Hp).
  replace (S s - blocks a) with 0 by lia. cbn [LfArray.grow].
  destruct (decide (s = j)) as [->|Hne].
  - rewrite Hload. by rewrite decide_True.
  - destruct (Hocc s ltac:(lia)) as (k' & Hk' & Hnk & Hn0).
    unfold key_at in Hk'. apply fmap_Some in Hk' as (pr' & -> & ->).
    rewrite decide_False by done.
    unfold compare_and_swap_test. rewrite decide_False by done.
    replace (p + s * Size + Size) with (p + S s * Size) by lia.
    apply IH; [lia| |done|done|lia].
    intros i Hi. apply Hocc. lia.
Qed.

(** What a lookup of a key other than the default one leaves: the slot it
    returns holds the key, the slots before it in the column hold other
    keys, and every slot that was in the table and is not the one returned
    is as it was, as is every slot that held a key. *)
Lemma at_key_effect fuel k m m' r :
  wf (m_data m) -> k <> key0 -> blocks (m_data m) < fuel ->
  at_key fuel k m = Some (m', r) ->
  exists j v,
    r = PairValue (Ref j (Hash k mod Size)) /\
    wf (m_data m') /\
    j < blocks (m_data m') /\
    blocks (m_data m) <= blocks (m_data m') /\
    j <= blocks (m_data m) /\
    load (m_data m') (Ref j (Hash k mod Size)) = Some (Pair k v) /\
    (forall i, i < j -> occupied_by_other k (m_data m) i (Hash k mod Size)) /\
    m_default_key_data m' = m_default_key_data m /\
    (forall r0 pr0, load (m_data m) r0 = Some pr0 ->
       key pr0 <> key0 \/ r0 <> Ref j (Hash k mod Size) ->
       load (m_data m') r0 = Some pr0).
Proof using Size_pos.
  intros Hwf Hk Hfuel Hat.
  set (p := Hash k mod Size) in *.
  assert (Hp : p < Size) by (apply Nat.mod_upper_bound; lia).
  destruct (probe_from key0 dflt Size Size_pos k Hk p Hp fuel (m_data m) 0
              Hwf ltac:(lia) ltac:(lia))
    as (j & pr & _ & Hocc & Hj & Hload & Hres).
  unfold LfHashmap.at_key in Hat. rewrite decide_False in Hat by done.
  fold p in Hat. replace (p + 0 * Size) with p in Hres by lia.
  destruct Hres as [(Hkey & Hlt & Hres)|(Hkey & Hres)];
    rewrite Hres in Hat; injection Hat as <- <-; cbn [m_data m_default_key_data].
  - replace (S j - blocks (m_data m)) with 0 in Hload by lia.
    cbn [LfArray.grow] in Hload.
    exists j, (value pr). split; [done|]. split; [done|]. split; [done|].
    split; [done|]. split; [lia|]. split.
    { rewrite Hload. f_equal. destruct pr. cbn in *. by subst. }
    split; [intros i Hi; apply Hocc; lia|]. split; [done|]. done.
  - set (a' := grow (S j - blocks (m_data m)) (m_data m)) in *.
    assert (Hwf' : wf a') by (by apply grow_wf).
    assert (Hb' : blocks a' = Nat.max (blocks (m_data m)) (S j)).
    { unfold a'. rewrite grow_blocks. lia. }
    exists j, (value pr). split; [done|]. unfold store.
    cbn [ref_block ref_slot].
    split; [by apply store_at_wf|].
    rewrite store_at_blocks.
    split; [lia|]. split; [lia|]. split; [done|]. split.
    { apply load_store_at_eq. by rewrite Hload. }
    split; [intros i Hi; apply Hocc; lia|]. split; [done|].
    intros r0 pr0 Hr0 Hcase.
    assert (Hr0' : load a' r0 = Some pr0) by (by apply grow_load).
    rewrite load_store_at_ne; [done|].
    intros ->. destruct Hcase as [Hcase|Hcase]; [|done].
    rewrite Hload in Hr0'. injection Hr0' as <-. done.
Qed.

Lemma occupied_stays k a a' i p :
  (forall r0 pr0, load a r0 = Some pr0 -> key pr0 <> key0 ->
     load a' r0 = Some pr0) ->
  occupied_by_other k a i p -> occupied_by_other k a' i p.
Proof.
  intros Hframe (k' & Hk' & Hnk & Hn0). exists k'. split; [|done].
  unfold key_at in *. apply fmap_Some in Hk' as (pr' & Hl & ->).
  rewrite (Hframe _ _ Hl Hn0). done.
Qed.

(** Looking a key up a second time returns the reference of the first
    time and leaves the map as the first lookup left it: an entry is
    created once. *)
Theorem lookup_again fuel k m m' r :
  wf (m_data m) -> blocks (m_data m) < fuel ->
  at_key fuel k m = Some (m', r) ->
  at_key fuel k m' = Some (m', r).
Proof using Size_pos.
  intros Hwf Hfuel Hat.
  destruct (decide (k = key0)) as [->|Hk].
  { unfold LfHashmap.at_key in *. rewrite decide_True in * by done.
    by injection Hat as <- <-. }
  destruct (at_key_effect fuel k m m' r Hwf Hk Hfuel Hat)
    as (j & v & -> & Hwf' & Hj & Hb & Hjb & Hload & Hocc & Hdef & Hframe).
  unfold LfHashmap.at_key. rewrite decide_False by done.
  assert (Hp : Hash k mod Size < Size) by (apply Nat.mod_upper_bound; lia).
  replace (Hash k mod Size) with (Hash k mod Size + 0 * Size) at 1 by lia.
  rewrite (probe_hit fuel k (m_data m') (Hash k mod Size) 0 j (Pair k v));
    try done; try lia.
  - by destruct m'.
  - intros i Hi. apply (occupied_stays k (m_data m)); [|apply Hocc; lia].
    intros r0 pr0 Hr0 Hne. apply Hframe; [done|by left].
Qed.

(** Two different keys, neither the default one, looked up one after the
    other: they are given different slots; the second lookup leaves the
    first key's slot and value alone; and the first key is found again in
    its slot afterwards, also when both keys hash to the same position. *)
Theorem keys_apart fuel k1 k2 m m1 m2 r1 r2 :
  wf (m_data m) -> k1 <> key0 -> k2 <> key0 -> k1 <> k2 ->
  S (blocks (m_data m)) < fuel ->
  at_key fuel k1 m = Some (m1, r1) ->
  at_key fuel k2 m1 = Some (m2, r2) ->
  r1 <> r2 /\
  deref m2 r1 = deref m1 r1 /\
  at_key fuel k1 m2 = Some (m2, r1).
Proof using Size_pos.
  intros Hwf Hk1 Hk2 Hne Hfuel Hat1 Hat2.
  destruct (at_key_effect fuel k1 m m1 r1 Hwf Hk1 ltac:(lia) Hat1)
    as (j1 & v1 & -> & Hwf1 & Hj1 & Hb1 & Hjb1 & Hload1 & Hocc1 & Hdef1 & Hframe1).
  assert (Hbm1 : blocks (m_data m1) <= S (blocks (m_data m))).
  { unfold LfHashmap.at_key in Hat1. rewrite decide_False in Hat1 by done.
    assert (Hp : Hash k1 mod Size < Size) by (apply Nat.mod_upper_bound; lia).
    destruct (probe_from key0 dflt Size Size_pos k1 Hk1 _ Hp fuel (m_data m) 0
                Hwf ltac:(lia) ltac:(lia))
      as (j & pr & _ & _ & Hj & _ & Hres).
    replace (Hash k1 mod Size + 0 * Size) with (Hash k1 mod Size) in Hres by lia.
    destruct Hres as [(_ & _ & Hres)|(_ & Hres)];
      rewrite Hres in Hat1; injection Hat1 as <- _; cbn [m_data]; [lia|].
    unfold store. rewrite store_at_blocks, grow_blocks. lia. }
  destruct (at_key_effect fuel k2 m1 m2 r2 Hwf1 Hk2 ltac:(lia) Hat2)
    as (j2 & v2 & -> & Hwf2 & Hj2 & Hb2 & Hjb2 & Hload2 & Hocc2 & Hdef2 & Hframe2).
  assert (Hkeep : load (m_data m2) (Ref j1 (Hash k1 mod Size)) = Some (Pair k1 v1)).
  { apply Hframe2; [done|by left]. }
  split.
  { intros [= Hj Hp]. rewrite <- Hj, <- Hp, Hkeep in Hload2. congruence. }
  split.
  { cbn [deref]. by rewrite Hkeep, Hload1. }
  unfold LfHashmap.at_key. rewrite decide_False by done.
  assert (Hp : Hash k1 mod Size < Size) by (apply Nat.mod_upper_bound; lia).
  replace (Hash k1 mod Size) with (Hash k1 mod Size + 0 * Size) at 1 by lia.
  rewrite (probe_hit fuel k1 (m_data m2) (Hash k1 mod Size) 0 j1 (Pair k1 v1));
    try done; try lia.
  - by destruct m2.
  - intros i Hi.
    apply (occupied_stays k1 (m_data m1)).
    { intros r0 pr0 Hr0 Hn0. apply Hframe2; [done|by left]. }
    apply (occupied_stays k1 (m_data m)); [|apply Hocc1; lia].
    intros r0 pr0 Hr0 Hn0. apply Hframe1; [done|by left].
Qed.

(** Assigning through the reference a lookup returned, then looking the
    key up again: the same reference comes back, and it reads the value
    assigned.  This holds for the default key as well, whose value lives
    outside the table. *)
Theorem assign_then_lookup fuel k m m1 r v :
  wf (m_data m) -> blocks (m_data m) < fuel ->
  at_key fuel k m = Some (m1, r) ->
  let m2 := store_value m1 r v in
  at_key fuel k m2 = Some (m2, r) /\ deref m2 r = Some v.
Proof using Size_pos.
  intros Hwf Hfuel Hat. cbv zeta.
  destruct (decide (k = key0)) as [->|Hk].
  { unfold LfHashmap.at_key in *. rewrite decide_True in * by done.
    injection Hat as <- <-. done. }
  destruct (at_key_effect fuel k m m1 r Hwf Hk Hfuel Hat)
    as (j & v0 & -> & Hwf1 & Hj & Hb & Hjb & Hload & Hocc & Hdef & Hframe).
  set (p := Hash k mod Size) in *.
  unfold store_value. rewrite Hload. cbn [key].
  unfold store. cbn [ref_block ref_slot].
  set (a2 := store_at (m_data m1) j p (Pair k v)).
  assert (Hl2 : load a2 (Ref j p) = Some (Pair k v)).
  { apply load_store_at_eq. by rewrite Hload. }
  split; [|cbn [deref m_data]; by rewrite Hl2].
  unfold LfHashmap.at_key. rewrite decide_False by done. fold p.
  assert (Hp : p < Size) by (apply Nat.mod_upper_bound; lia).
  cbn [m_data m_default_key_data].
  replace p with (p + 0 * Size) at 1 by lia.
  rewrite (probe_hit fuel k a2 p 0 j (Pair k v)); try done; try lia.
  - unfold a2. rewrite store_at_blocks. done.
  - intros i Hi. destruct (Hocc i ltac:(lia)) as (k' & Hk' & Hnk & Hn0).
    exists k'. split; [|done]. unfold key_at in *.
    apply fmap_Some in Hk' as (pr' & Hl & ->).
    unfold a2. rewrite load_store_at_ne by (intros [=]; lia).
    rewrite (Hframe _ _ Hl); [done|by left].
Qed.

End table.

(** [lookup_again] in a table of four columns whose slot 1 holds key 5:
    key 9 falls on the same column and is entered in a second block. *)
Lemma lookup_again_witness :
  let a := Block [Pair 0 0; Pair 5 50; Pair 0 0; Pair 0 0] None in
  let m := Hashmap a 0 in
  let m' := Hashmap (Block [Pair 0 0; Pair 5 50; Pair 0 0; Pair 0 0]
              (Some (Block [Pair 0 0; Pair 9 0; Pair 0 0; Pair 0 0] None))) 0 in
  0 < 4 /\ LfArray.wf 4 (m_data m) /\ blocks (m_data m) < 3 /\
  at_key 0 0 id 4 3 9 m = Some (m', PairValue (Ref 1 1)) /\
  at_key 0 0 id 4 3 9 m' = Some (m', PairValue (Ref 1 1)).
Proof.
  cbv zeta.
  assert (Hwf : LfArray.wf 4
            (m_data (Hashmap (Block [Pair 0 0; Pair 5 50; Pair 0 0; Pair 0 0] None) 0)))
    by reflexivity.
  assert (Hb : blocks
            (m_data (Hashmap (Block [Pair 0 0; Pair 5 50; Pair 0 0; Pair 0 0] None) 0)) < 3)
    by (cbn; lia).
  split; [lia|]. split; [exact Hwf|]. split; [exact Hb|].
  split; [reflexivity|].
  exact (lookup_again 0 0 id 4 (Nat.lt_0_succ 3) 3 9 _ _ _ Hwf Hb eq_refl).
Defined.

(** [keys_apart] for the keys 5 and 9 in an empty table of four columns:
    both fall on column 1. *)
Lemma keys_apart_witness :
  let m := Hashmap (Block [Pair 0 0; Pair 0 0; Pair 0 0; Pair 0 0] None) 0 in
  let m1 := Hashmap (Block [Pair 0 0; Pair 5 0; Pair 0 0; Pair 0 0] None) 0 in
  let m2 := Hashmap (Block [Pair 0 0; Pair 5 0; Pair 0 0; Pair 0 0]
              (Some (Block [Pair 0 0; Pair 9 0; Pair 0 0; Pair 0 0] None))) 0 in
  0 < 4 /\ LfArray.wf 4 (m_data m) /\ 5 <> 0 /\ 9 <> 0 /\ 5 <> 9 /\
  S (blocks (m_data m)) < 3 /\
  at_key 0 0 id 4 3 5 m = Some (m1, PairValue (Ref 0 1)) /\
  at_key 0 0 id 4 3 9 m1 = Some (m2, PairValue (Ref 1 1)) /\
  PairValue (Ref 0 1) <> PairValue (Ref 1 1) /\
  deref m2 (PairValue (Ref 0 1)) = deref m1 (PairValue (Ref 0 1)) /\
  at_key 0 0 id 4 3 5 m2 = Some (m2, PairValue (Ref 0 1)).
Proof.
  cbv zeta.
  assert (Hwf : LfArray.wf 4
            (m_data (Hashmap (Block [Pair 0 0; Pair 0 0; Pair 0 0; Pair 0 0] None) 0)))
    by reflexivity.
  assert (Hb : S (blocks
            (m_data (Hashmap (Block [Pair 0 0; Pair 0 0; Pair 0 0; Pair 0 0] None) 0))) < 3)
    by (cbn; lia).
  assert (H5 : 5 <> 0) by discriminate.
  assert (H9 : 9 <> 0) by discriminate.
  assert (H59 : 5 <> 9) by discriminate.
  split; [lia|]. split; [exact Hwf|]. split; [exact H5|]. split; [exact H9|].
  split; [exact H59|]. split; [exact Hb|].
  split; [reflexivity|]. split; [reflexivity|].
  exact (keys_apart 0 0 id 4 (Nat.lt_0_succ 3) 3 5 9 _ _ _ _ _
           Hwf H5 H9 H59 Hb eq_refl eq_refl).
Defined.

(** [assign_then_lookup] for key 9, assigned 90, in a table of four
    columns whose slot 1 holds key 5. *)
Lemma assign_then_lookup_witness :
  let m := Hashmap (Block [Pair 0 0; Pair 5 50; Pair 0 0; Pair 0 0] None) 0 in
  let m1 := Hashmap (Block [Pair 0 0; Pair 5 50; Pair 0 0; Pair 0 0]
              (Some (Block [Pair 0 0; Pair 9 0; Pair 0 0; Pair 0 0] None))) 0 in
  let m2 := store_value m1 (PairValue (Ref 1 1)) 90 in
  0 < 4 /\ LfArray.wf 4 (m_data m) /\ blocks (m_data m) < 3 /\
  at_key 0 0 id 4 3 9 m = Some (m1, PairValue (Ref 1 1)) /\
  at_key 0 0 id 4 3 9 m2 = Some (m2, PairValue (Ref 1 1)) /\
  deref m2 (PairValue (Ref 1 1)) = Some 90.
Proof.
  cbv zeta.
  assert (Hwf : LfArray.wf 4
            (m_data (Hashmap (Block [Pair 0 0; Pair 5 50; Pair 0 0; Pair 0 0] None) 0)))
    by reflexivity.
  assert (Hb : blocks
            (m_data (Hashmap (Block [Pair 0 0; Pair 5 50; Pair 0 0; Pair 0 0] None) 0)) < 3)
    by (cbn; lia).
  split; [lia|]. split; [exact Hwf|]. split; [exact Hb|].
  split; [reflexivity|].
  exact (assign_then_lookup 0 0 id 4 (Nat.lt_0_succ 3) 3 9 _ _ _ 90 Hwf Hb eq_refl).
Defined.

End LfHashmapLaws.

(** ** [lf_queue]: withdrawing the list, and the destructors *)

Module LfQueueLaws.
Import LfQueue LfQueueFacts.

Section list.
Context {T : Type}.
Implicit Type h : gmap nat (lf_item T).
Implicit Type ls : list nat.
Implicit Type vs : list T.

(** The links decide the list. *)
Lemma chain_functional h p ls vs ls' vs' :
  chain h p ls vs -> chain h p ls' vs' -> ls = ls' /\ vs = vs'.
Proof.
  revert p vs ls' vs'.
  induction ls as [|l ls IH]; intros p [|v vs] ls' vs'; cbn; try done.
  - intros -> Hc. by apply chain_null in Hc as [-> ->].
  - intros (nxt & -> & Hl & Hc) Hc'.
    apply chain_cons in Hc' as (nxt' & v' & ls1 & vs1 & -> & -> & Hl' & Hc').
    rewrite Hl in Hl'. injection Hl' as <- <-.
    destruct (IH nxt vs ls1 vs1 Hc Hc') as [-> ->]. done.
Qed.

Lemma chain_suffix h p ls1 l ls2 vs :
  chain h p (ls1 ++ l :: ls2) vs -> exists vs2, chain h (Some l) (l :: ls2) vs2.
Proof.
  revert p vs. induction ls1 as [|l1 ls1 IH]; intros p [|v vs]; cbn; try done.
  - intros (nxt & -> & Hl & Hc). exists (v :: vs). cbn. by exists nxt.
  - intros (nxt & -> & Hl & Hc). by apply (IH nxt vs).
Qed.

(** A list that ends in a null link goes through no item twice. *)
Lemma chain_NoDup h p ls vs : chain h p ls vs -> NoDup ls.
Proof.
  revert p vs. induction ls as [|l ls IH]; intros p vs Hc.
  { apply NoDup_nil_2. }
  pose proof Hc as Hc0.
  destruct vs as [|v vs]; [done|]. cbn in Hc.
  destruct Hc as (nxt & -> & Hl & Hc).
  apply NoDup_cons. split; [|by apply (IH nxt vs)].
  intros Hin. apply list_elem_of_split in Hin as (ls1 & ls2 & Hls).
  rewrite Hls in Hc. destruct (chain_suffix _ _ _ _ _ _ Hc) as (vs2 & Hc2).
  destruct (chain_functional _ _ _ _ _ _ Hc0 Hc2) as [Heq _].
  injection Heq as Heq. rewrite Hls in Heq.
  apply (f_equal length) in Heq. rewrite length_app in Heq. cbn in Heq. lia.
Qed.

Lemma item_dtor_loop_null fuel h : item_dtor_loop fuel h None = Some h.
Proof. by destruct fuel. Qed.

(** The destructor's loop frees the items of the list it is given, one
    after the other, and nothing else. *)
Lemma item_dtor_loop_chain fuel h ptr ls vs :
  chain h ptr ls vs -> NoDup ls -> length ls < fuel ->
  exists h', item_dtor_loop fuel h ptr = Some h' /\
    (forall l, l ∈ ls -> h' !! l = None) /\
    (forall l, l ∉ ls -> h' !! l = h !! l).
Proof.
  revert h ptr ls vs.
  induction fuel as [|fuel IH]; intros h ptr ls vs Hc Hnd Hfuel; [lia|].
  destruct ptr as [p|].
  - apply chain_cons in Hc as (nxt & v & ls' & vs' & -> & -> & Hp & Hc).
    apply NoDup_cons in Hnd as (Hhd & Hnd').
    cbn [item_dtor_loop]. unfold item_pop_all. rewrite Hp. cbn [m_link m_data].
    destruct fuel as [|fuel']; [cbn in Hfuel; lia|].
    cbn [delete_item]. rewrite lookup_insert_eq. cbn [m_link].
    rewrite item_dtor_loop_null, delete_insert_eq.
    destruct (IH (delete p h) nxt ls' vs') as (h' & -> & Hin & Hout);
      [|done|cbn in Hfuel; lia|].
    { apply (chain_frame h); [|done]. intros l Hl.
      apply lookup_delete_ne. by intros <-. }
    exists h'. split; [done|]. split.
    + intros l Hl. apply elem_of_cons in Hl as [->|Hl]; [|by apply Hin].
      rewrite Hout by done. apply lookup_delete_eq.
    + intros l Hl. rewrite Hout.
      * apply lookup_delete_ne. intros <-. apply Hl. by left.
      * intros Hl'. apply Hl. by right.
  - apply chain_null in Hc as [-> ->].
    exists h. rewrite item_dtor_loop_null. split; [done|]. split; [|done].
    intros l Hl. by apply elem_of_nil in Hl.
Qed.

(** [delete] on the first item of a list frees the whole list. *)
Lemma delete_item_chain fuel h p ls vs :
  chain h (Some p) ls vs -> length ls < fuel ->
  exists h', delete_item fuel h p = Some h' /\
    (forall l, l ∈ ls -> h' !! l = None) /\
    (forall l, l ∉ ls -> h' !! l = h !! l).
Proof.
  intros Hc Hfuel. pose proof (chain_NoDup _ _ _ _ Hc) as Hnd.
  apply chain_cons in Hc as (nxt & v & ls' & vs' & -> & -> & Hp & Hc).
  apply NoDup_cons in Hnd as (Hhd & Hnd').
  destruct fuel as [|fuel]; [lia|].
  cbn [delete_item]. rewrite Hp. cbn [m_link].
  destruct (item_dtor_loop_chain fuel h nxt ls' vs' Hc Hnd')
    as (h' & -> & Hin & Hout); [cbn in Hfuel; lia|].
  exists (delete p h'). split; [done|]. split.
  - intros l Hl. apply elem_of_cons in Hl as [->|Hl].
    + apply lookup_delete_eq.
    + destruct (decide (l = p)) as [->|Hne]; [apply lookup_delete_eq|].
      rewrite lookup_delete_ne by done. by apply Hin.
  - intros l Hl. rewrite lookup_delete_ne.
    + apply Hout. intros Hl'. apply Hl. by right.
    + intros <-. apply Hl. by left.
Qed.

Lemma release_list_chain fuel h p ls vs :
  chain h p ls vs -> length ls < fuel ->
  exists h', release_list fuel h p = Some h' /\
    (forall l, l ∈ ls -> h' !! l = None) /\
    (forall l, l ∉ ls -> h' !! l = h !! l).
Proof.
  intros Hc Hfuel. destruct p as [p|]; cbn [release_list].
  - by apply (delete_item_chain fuel h p ls vs).
  - apply chain_null in Hc as [-> ->]. exists h. split; [done|].
    split; [|done]. intros l Hl. by apply elem_of_nil in Hl.
Qed.

(** [pop_all()] on a queue whose items are linked, newest first, through
    [ls]: it returns (given the rounds for the loop) the same items linked
    in the opposite order, oldest first, and leaves the queue empty; no
    item is created or freed and no other object of the store is touched;
    a second [pop_all()] returns null. *)
Theorem pop_all_oldest_first fuel s ls vs :
  chain (heap s) (m_head s) ls vs ->
  length ls <= S fuel ->
  exists h' p,
    pop_all fuel s = Some (p, State h' None) /\
    chain h' p (rev ls) (rev vs) /\
    (p = None <-> m_head s = None) /\
    dom h' = dom (heap s) /\
    (forall l, l ∉ ls -> h' !! l = heap s !! l) /\
    pop_all fuel (State h' None) = Some (None, State h' None).
Proof.
  intros Hc Hfuel. pose proof (chain_NoDup _ _ _ _ Hc) as Hnd.
  destruct (reverse_chain fuel s ls vs Hc Hnd Hfuel) as (h' & p & Hrev & Hc' & Hout).
  exists h', p. split; [done|]. split; [done|]. split.
  { split.
    - intros ->. apply chain_null in Hc' as [Hl _].
      destruct ls as [|l ls'].
      + destruct vs; [|done]. done.
      + cbn in Hl. by destruct (rev ls').
    - intros Hnull. rewrite Hnull in Hc. apply chain_null in Hc as [-> ->].
      done. }
  split.
  { apply set_eq. intros l. rewrite !elem_of_dom.
    destruct (decide (l ∈ ls)) as [Hl|Hl].
    - split; intros _.
      + by apply (chain_dom _ _ _ _ _ Hc).
      + apply (chain_dom _ _ _ _ _ Hc'). by rewrite <- Permutation_rev.
    - by rewrite Hout. }
  split; [done|]. done.
Qed.

(** [~lf_queue()] on a queue whose items are linked through [ls]: it
    returns (given the rounds for the nested destructors), every item of
    the queue has been freed, and nothing else in the store has changed. *)
Theorem destructor_frees_all fuel s ls vs :
  chain (heap s) (m_head s) ls vs ->
  length ls < fuel ->
  exists h',
    queue_dtor fuel s = Some h' /\
    (forall l, l ∈ ls -> h' !! l = None) /\
    (forall l, l ∉ ls -> h' !! l = heap s !! l).
Proof.
  intros Hc Hfuel.
  destruct (release_list_chain fuel (heap s) (m_head s) ls vs Hc Hfuel)
    as (h' & Hrel & Hin & Hout).
  exists h'. split; [|done]. unfold queue_dtor.
  by destruct (m_head s).
Qed.

(** Nothing leaks.  After any pushes into an empty queue, destroying the
    queue gives the store back as it was before the first push; so does
    withdrawing the list with [pop_all()] and letting go of the pointer
    returned, after which the queue is empty. *)
Theorem nothing_leaks h0 vs fuel :
  length vs < fuel ->
  exists s,
    push_all vs (init h0) = Some s /\
    queue_dtor fuel s = Some h0 /\
    exists p h1,
      pop_all fuel s = Some (p, State h1 None) /\
      release_list fuel h1 p = Some h0.
Proof.
  intros Hfuel.
  destruct (push_all_chain vs (init h0) [] [] eq_refl NoDup_nil_2)
    as (s & ls & Hall & Hc & Hnd & Hnew & Hout).
  rewrite !app_nil_r in *. cbn [init heap] in *.
  pose proof (chain_length _ _ _ _ Hc) as Hlen. rewrite length_rev in Hlen.
  exists s. split; [done|]. split.
  - destruct (release_list_chain fuel (heap s) (m_head s) ls (rev vs) Hc)
      as (h' & Hrel & Hin' & Hout'); [lia|].
    assert (Hh : h' = h0).
    { apply map_eq. intros l. destruct (decide (l ∈ ls)) as [Hl|Hl].
      - rewrite Hin' by done. symmetry. by apply Hnew.
      - rewrite Hout' by done. by apply Hout. }
    unfold queue_dtor. rewrite <- Hh. by destruct (m_head s).
  - destruct (reverse_chain fuel s ls (rev vs) Hc Hnd ltac:(lia))
      as (h1 & p & Hrev & Hc1 & Hout1).
    exists p, h1. split; [done|].
    destruct (release_list_chain fuel h1 p (rev ls) (rev (rev vs)) Hc1)
      as (h' & Hrel & Hin' & Hout'); [rewrite length_rev; lia|].
    rewrite Hrel. f_equal.
    apply map_eq. intros l. destruct (decide (l ∈ ls)) as [Hl|Hl].
    + rewrite Hin' by (by rewrite <- Permutation_rev). symmetry.
      by apply Hnew.
    + rewrite Hout' by (by rewrite <- Permutation_rev).
      rewrite Hout1 by done. by apply Hout.
Qed.

End list.

(** [pop_all_oldest_first] on a queue into which 5 and then 7 were pushed,
    at the addresses 1 and 2. *)
Lemma pop_all_oldest_first_witness :
  let s := State (<[2 := Item (Some 1) 7]> (<[1 := Item None 5]> ∅)) (Some 2) in
  chain (heap s) (m_head s) [2; 1] [7; 5] /\
  length [2; 1] <= S 1 /\
  exists h' p,
    pop_all 1 s = Some (p, State h' None) /\
    chain h' p (rev [2; 1]) (rev [7; 5]) /\
    (p = None <-> m_head s = None) /\
    dom h' = dom (heap s) /\
    (forall l, l ∉ [2; 1] -> h' !! l = heap s !! l) /\
    pop_all 1 (State h' None) = Some (None, State h' None).
Proof.
  cbv zeta.
  assert (Hc : chain
            (heap (State (<[2 := Item (Some 1) 7]> (<[1 := Item None 5]> ∅)) (Some 2)))
            (m_head (State (<[2 := Item (Some 1) 7]> (<[1 := Item None 5]> ∅)) (Some 2)))
            [2; 1] [7; 5]).
  { exists (Some 1). split; [reflexivity|]. split; [reflexivity|].
    exists None. split; [reflexivity|]. split; reflexivity. }
  split; [exact Hc|]. split; [apply Nat.le_refl|].
  exact (pop_all_oldest_first 1 _ [2; 1] [7; 5] Hc (Nat.le_refl 2)).
Defined.

(** [destructor_frees_all] on the same queue. *)
Lemma destructor_frees_all_witness :
  let s := State (<[2 := Item (Some 1) 7]> (<[1 := Item None 5]> ∅)) (Some 2) in
  chain (heap s) (m_head s) [2; 1] [7; 5] /\
  length [2; 1] < 3 /\
  exists h',
    queue_dtor 3 s = Some h' /\
    (forall l, l ∈ [2; 1] -> h' !! l = None) /\
    (forall l, l ∉ [2; 1] -> h' !! l = heap s !! l).
Proof.
  cbv zeta.
  assert (Hc : chain
            (heap (State (<[2 := Item (Some 1) 7]> (<[1 := Item None 5]> ∅)) (Some 2)))
            (m_head (State (<[2 := Item (Some 1) 7]> (<[1 := Item None 5]> ∅)) (Some 2)))
            [2; 1] [7; 5]).
  { exists (Some 1). split; [reflexivity|]. split; [reflexivity|].
    exists None. split; [reflexivity|]. split; reflexivity. }
  split; [exact Hc|]. split; [apply Nat.lt_succ_diag_r|].
  exact (destructor_frees_all 3 _ [2; 1] [7; 5] Hc (Nat.lt_succ_diag_r 2)).
Defined.

(** [nothing_leaks] on three pushes into an empty queue in an empty
    store. *)
Lemma nothing_leaks_witness :
  length [5; 6; 7] < 4 /\
  exists s,
    push_all [5; 6; 7] (init ∅) = Some s /\
    queue_dtor 4 s = Some ∅ /\
    exists p h1,
      pop_all 4 s = Some (p, State h1 None) /\
      release_list 4 h1 p = Some ∅.
Proof.
  split; [apply Nat.lt_succ_diag_r|].
  exact (nothing_leaks ∅ [5; 6; 7] 4 (Nat.lt_succ_diag_r 3)).
Defined.

End LfQueueLaws.

(** ** [lf_value]: the kept values, and the destructor *)

Module LfValueLaws.
Import LfValue LfValueFacts.

Section cell.
Context {T : Type}.
Implicit Type h : gmap nat (lf_value T).
Implicit Type ls : list nat.
Implicit Type vs : list T.

Lemma history_frame this h h' p ls vs :
  (forall l, l ∈ ls -> h' !! l = h !! l) ->
  history this h p ls vs -> history this h' p ls vs.
Proof.
  revert p vs. induction ls as [|l ls IH]; intros p [|v vs] Hsame; cbn;
    try done.
  intros (-> & Hne & nxt & Hl & Hc). split; [done|]. split; [done|].
  exists nxt. split.
  - rewrite Hsame; [done|]. by left.
  - apply IH; [|done]. intros l' Hl'. apply Hsame. by right.
Qed.

Lemma history_dom this h p ls vs l :
  history this h p ls vs -> l ∈ ls -> is_Some (h !! l) /\ l <> this.
Proof.
  revert p vs. induction ls as [|l' ls IH]; intros p [|v vs]; cbn; try done.
  - intros _ Hin. by apply elem_of_nil in Hin.
  - intros (-> & Hne & nxt & Hl & Hc) Hin.
    apply elem_of_cons in Hin as [->|Hin]; [eauto|].
    by apply (IH nxt vs).
Qed.

Lemma history_length this h p ls vs :
  history this h p ls vs -> length ls = length vs.
Proof.
  revert p vs. induction ls as [|l ls IH]; intros p [|v vs]; cbn; try done.
  intros (_ & _ & nxt & _ & Hc). f_equal. by apply (IH nxt).
Qed.

Lemma construct_kept this v0 h : kept this v0 (construct this v0 h) [] [].
Proof.
  exists this. unfold construct. rewrite lookup_insert_eq.
  split; [done|]. split; [done|]. apply NoDup_nil_2.
Qed.

(** One assignment puts a new object, taken from the free store, in front
    of the ones kept. *)
Lemma assign_kept this v0 v h ls vs :
  kept this v0 h ls vs ->
  exists h' val,
    assign this v h = Some (v, h') /\
    h !! val = None /\
    kept this v0 h' (val :: ls) (v :: vs) /\
    (forall l, l <> this -> l <> val -> h' !! l = h !! l).
Proof.
  intros (p & Hthis & Hh & Hnd). unfold assign, construct.
  set (val := fresh (dom h)).
  assert (Hval : h !! val = None) by (apply not_elem_of_dom, is_fresh).
  assert (Hne : val <> this) by congruence.
  rewrite lookup_insert_ne, Hthis by exact Hne.
  cbn [assign_retry m_head]. rewrite lookup_alter_ne by exact Hne.
  rewrite lookup_insert_ne, Hthis by exact Hne. cbn [m_head m_data].
  rewrite AtomicFacts.exchange_same.
  rewrite lookup_insert_ne by congruence.
  rewrite lookup_alter_eq, lookup_insert_eq. cbn.
  eexists _, val. split; [reflexivity|]. split; [done|].
  assert (Hnew : val ∉ ls).
  { intros Hin. destruct (history_dom _ _ _ _ _ _ Hh Hin) as [[? ?] _].
    congruence. }
  split.
  - exists val. rewrite lookup_insert_eq. split; [done|]. split.
    + cbn. split; [done|]. split; [done|]. exists p.
      rewrite lookup_insert_ne by congruence.
      rewrite lookup_alter_eq, lookup_insert_eq. split; [done|].
      apply (history_frame this h); [|done].
      intros l Hl. destruct (history_dom _ _ _ _ _ _ Hh Hl) as [_ Hlt].
      rewrite lookup_insert_ne by congruence.
      rewrite lookup_alter_ne by (by intros <-).
      apply lookup_insert_ne. by intros <-.
    + apply NoDup_cons. by split.
  - intros l Hl1 Hl2.
    rewrite lookup_insert_ne by congruence.
    rewrite lookup_alter_ne by congruence.
    apply lookup_insert_ne. congruence.
Qed.

Lemma assign_all_kept this v0 vs h ls0 vs0 :
  kept this v0 h ls0 vs0 ->
  exists h' ls,
    assign_all this vs h = Some h' /\
    kept this v0 h' (ls ++ ls0) (rev vs ++ vs0) /\
    (forall l, l ∈ ls -> h !! l = None) /\
    (forall l, l <> this -> l ∉ ls -> h' !! l = h !! l).
Proof.
  revert h ls0 vs0. induction vs as [|v vs IH]; intros h ls0 vs0 Hk.
  { exists h, []. cbn. repeat split; try done.
    intros l Hl. by apply elem_of_nil in Hl. }
  destruct (assign_kept this v0 v h ls0 vs0 Hk) as (h1 & val & Ha & Hval & Hk1 & Hout1).
  destruct (IH h1 (val :: ls0) (v :: vs0) Hk1) as (h' & ls & Hall & Hk' & Hnew & Hout).
  assert (Hvt : val <> this).
  { destruct Hk as (p & Hthis & _). congruence. }
  exists h', (ls ++ [val]). cbn [assign_all rev]. rewrite Ha.
  rewrite <- !app_assoc. cbn [app].
  split; [done|]. split; [done|]. split.
  - intros l Hl. apply elem_of_app in Hl as [Hl|Hl].
    + assert (Hlt : l <> this).
      { destruct Hk' as (p' & _ & Hh' & _).
        apply (history_dom _ _ _ _ _ l Hh'). apply elem_of_app. by left. }
      assert (Hlv : l <> val).
      { destruct Hk' as (_ & _ & _ & Hnd').
        apply NoDup_app in Hnd' as (_ & Hdisj & _).
        intros ->. apply (Hdisj val Hl). by left. }
      rewrite <- (Hout1 l Hlt Hlv). by apply Hnew.
    + apply list_elem_of_singleton in Hl. by subst l.
  - intros l Hlt Hl. rewrite Hout.
    + apply Hout1; [done|]. intros ->. apply Hl.
      apply elem_of_app. right. by apply list_elem_of_singleton.
    + done.
    + intros Hin. apply Hl. apply elem_of_app. by left.
Qed.

(** Following [head()] from an object and reading [first()] on the way
    gives the values kept, up to the cell. *)
Lemma values_from_history fuel this h p ls vs :
  history this h p ls vs -> length ls <= fuel ->
  values_from fuel this h p = Some vs.
Proof.
  revert p ls vs. induction fuel as [|fuel IH]; intros p ls vs Hh Hfuel.
  - destruct ls; [|cbn in Hfuel; lia]. destruct vs; [|done].
    cbn in Hh. subst p. cbn. by rewrite decide_True.
  - destruct ls as [|l ls], vs as [|v vs]; try done.
    + cbn in Hh. subst p. cbn. by rewrite decide_True.
    + cbn in Hh. destruct Hh as (-> & Hne & nxt & Hl & Hh).
      cbn [values_from]. rewrite decide_False by done.
      unfold first, head. rewrite Hl. cbn.
      rewrite (IH nxt ls vs Hh); [done|cbn in Hfuel; lia].
Qed.

(** The destructor's loop frees the objects kept, one after the other,
    and nothing else. *)
Lemma value_dtor_loop_history fuel this h ptr ls vs :
  history this h ptr ls vs -> NoDup ls -> length ls < fuel ->
  exists h', value_dtor_loop fuel this h ptr = Some h' /\
    (forall l, l ∈ ls -> h' !! l = None) /\
    (forall l, l ∉ ls -> h' !! l = h !! l).
Proof.
  revert h ptr ls vs.
  induction fuel as [|fuel IH]; intros h ptr ls vs Hh Hnd Hfuel; [lia|].
  destruct ls as [|l ls], vs as [|v vs]; try done.
  - cbn in Hh. subst ptr. exists h. cbn. rewrite decide_True by done.
    split; [done|]. split; [|done]. intros l Hl. by apply elem_of_nil in Hl.
  - cbn in Hh. destruct Hh as (-> & Hne & nxt & Hl & Hh).
    apply NoDup_cons in Hnd as (Hhd & Hnd').
    cbn [value_dtor_loop]. rewrite decide_False by done.
    rewrite Hl. cbn [m_head m_data].
    destruct fuel as [|fuel']; [cbn in Hfuel; lia|].
    cbn [delete_value]. rewrite lookup_insert_eq. cbn [m_head].
    assert (Hself : forall g : gmap nat (lf_value T),
               value_dtor_loop fuel' l g l = Some g).
    { intros g. destruct fuel'; cbn; by rewrite decide_True. }
    rewrite Hself, delete_insert_eq.
    destruct (IH (delete l h) nxt ls vs) as (h' & -> & Hin & Hout);
      [|done|cbn in Hfuel; lia|].
    { apply (history_frame this h); [|done]. intros l' Hl'.
      apply lookup_delete_ne. by intros <-. }
    exists h'. split; [done|]. split.
    + intros l' Hl'. apply elem_of_cons in Hl' as [->|Hl']; [|by apply Hin].
      rewrite Hout by done. apply lookup_delete_eq.
    + intros l' Hl'. rewrite Hout.
      * apply lookup_delete_ne. intros <-. apply Hl'. by left.
      * intros Hl''. apply Hl'. by right.
Qed.

(** All values are kept.  After a cell is constructed with [v0] and
    assigned [vs], a reader that starts at [head()] and follows [head()]
    from object to object, reading [first()] of each, meets the values
    assigned, newest first, and then arrives at the cell itself, whose
    [first()] is [v0]. *)
Theorem values_newest_first this v0 vs h fuel :
  length vs <= fuel ->
  exists h' p,
    assign_all this vs (construct this v0 h) = Some h' /\
    head this h' = Some p /\
    values_from fuel this h' p = Some (rev vs) /\
    first this h' = Some v0.
Proof.
  intros Hfuel.
  destruct (assign_all_kept this v0 vs _ [] [] (construct_kept this v0 h))
    as (h' & ls & Hall & (p & Hthis & Hh & Hnd) & _ & _).
  rewrite !app_nil_r in *.
  pose proof (history_length _ _ _ _ _ Hh) as Hlen. rewrite length_rev in Hlen.
  exists h', p. split; [done|]. unfold head, first. rewrite Hthis.
  split; [done|]. split; [|done].
  apply (values_from_history fuel this h' p ls); [done|lia].
Qed.

(** Nothing leaks.  A cell constructed at an address that was free and
    then assigned any values: its destructor returns (given the rounds
    for the nested destructors) and frees every object the assignments
    created; releasing the cell's own storage then gives the store back
    as it was before the cell was constructed. *)
Theorem destructor_frees_values this v0 vs h fuel :
  h !! this = None ->
  length vs < fuel ->
  exists h' h'',
    assign_all this vs (construct this v0 h) = Some h' /\
    dtor fuel this h' = Some h'' /\
    delete this h'' = h /\
    delete_value (S fuel) h' this = Some h.
Proof.
  intros Hfree Hfuel.
  destruct (assign_all_kept this v0 vs _ [] [] (construct_kept this v0 h))
    as (h' & ls & Hall & (p & Hthis & Hh & Hnd) & Hnew & Hout).
  rewrite !app_nil_r in *.
  pose proof (history_length _ _ _ _ _ Hh) as Hlen. rewrite length_rev in Hlen.
  destruct (value_dtor_loop_history fuel this h' p ls (rev vs) Hh Hnd)
    as (h'' & Hloop & Hin2 & Hout2); [lia|].
  assert (Hdel : delete this h'' = h).
  { apply map_eq. intros l. destruct (decide (l = this)) as [->|Hlt].
    { by rewrite lookup_delete_eq, Hfree. }
    rewrite lookup_delete_ne by done.
    destruct (decide (l ∈ ls)) as [Hl|Hl].
    - rewrite Hin2 by done. specialize (Hnew l Hl). unfold construct in Hnew.
      by rewrite lookup_insert_ne in Hnew.
    - rewrite Hout2, Hout by done. unfold construct.
      by apply lookup_insert_ne. }
  exists h', h''. split; [done|]. unfold dtor. rewrite Hthis. cbn [m_head].
  split; [done|]. split; [done|].
  cbn [delete_value]. rewrite Hthis. cbn [m_head]. by rewrite Hloop, Hdel.
Qed.

End cell.

(** [values_newest_first] on a cell constructed with 1 and assigned 2 and
    then 3. *)
Lemma values_newest_first_witness :
  length [2; 3] <= 2 /\
  exists h' p,
    assign_all 0 [2; 3] (construct 0 1 ∅) = Some h' /\
    head 0 h' = Some p /\
    values_from 2 0 h' p = Some (rev [2; 3]) /\
    first 0 h' = Some 1.
Proof.
  split; [apply Nat.le_refl|].
  exact (values_newest_first 0 1 [2; 3] ∅ 2 (Nat.le_refl 2)).
Defined.

(** [destructor_frees_values] on the same cell, in an empty store. *)
Lemma destructor_frees_values_witness :
  (∅ : gmap nat (lf_value nat)) !! 0 = None /\
  length [2; 3] < 3 /\
  exists h' h'',
    assign_all 0 [2; 3] (construct 0 1 ∅) = Some h' /\
    dtor 3 0 h' = Some h'' /\
    delete 0 h'' = ∅ /\
    delete_value 4 h' 0 = Some ∅.
Proof.
  split; [reflexivity|]. split; [apply Nat.lt_succ_diag_r|].
  exact (destructor_frees_values 0 1 [2; 3] ∅ 3 eq_refl (Nat.lt_succ_diag_r 2)).
Defined.

End LfValueLaws.
